(** * The Lasso regularisation path driver of examples/cpp_sp/lasso_path.cpp

    The source is a C++ template over the scalar type [T] (instantiated at
    [float] and [double]).  Following the specification, which treats the
    reductions and the schedule arithmetic as exact real arithmetic, the
    scalar type is interpreted as the real numbers [R]: [std::abs] is [Rabs],
    [std::max] is [std_max] below, [std::log] and [std::exp] are [ln] and
    [exp].  Rounding, infinities and NaN are outside this model; where the
    order of the floating-point operations matters, the module [Double]
    gives the two reductions and the test in binary64 arithmetic.

    Vectors ([std::vector<T>]) are lists, indices are natural numbers, and a
    read [v[i]] is [nth i v 0]; the source never reads out of range on the
    inputs considered here (all buffers of the driver keep their size). *)

From Stdlib Require Import Reals Lra Lia List Permutation Bool.
From Stdlib Require PrimFloat.
From stdpp Require Import base list.
Import ListNotations.

Open Scope R_scope.

(** ** Loops *)

(** [for (unsigned int i = lo; i < hi; ++i) body] threading the state [s]. *)
Definition for_range {S : Type} (lo hi : nat) (body : nat -> S -> S) (s : S) : S :=
  fold_left (fun s i => body i s) (seq lo (hi - lo)) s.

(** ** Scalar helpers *)

(** [std::max(a, b)] is [(a < b) ? b : a]. *)
Definition std_max (a b : R) : R := if Rlt_dec a b then b else a.

(** The value of [std::numeric_limits<double>::max()]. *)
Definition T_max : R := IZR (2 ^ 1024 - 2 ^ 971).
Arguments T_max : simpl never.

(** ** The two reductions *)

(** [MaxDiff(v1, v2)]: lines 11-18. *)
Definition MaxDiff (v1 v2 : list R) : R :=
  for_range 0 (length v1)
    (fun i max_diff => std_max max_diff (Rabs (nth i v1 0 - nth i v2 0))) 0.

(** [Asum(v)]: lines 20-27. *)
Definition Asum (v : list R) : R :=
  for_range 0 (length v) (fun i asum => asum + Rabs (nth i v 0)) 0.

(** The condition of the [if] at line 94:
    [MaxDiff(&x, &x_last) < 1e-3 * Asum(&x)]. *)
Definition converged (x x_last : list R) : bool :=
  if Rlt_dec (MaxDiff x x_last) (1 / 1000 * Asum x) then true else false.

(** ** The reductions as the specification words them *)

(** [max_j |x[j] - x_prev[j]|], the maximum of an empty family being 0. *)
Definition max_abs_diff (x x_prev : list R) : R :=
  fold_right Rmax 0 (map (fun p => Rabs (fst p - snd p)) (combine x x_prev)).

(** [sum_j |x[j]|]. *)
Definition abs_sum (x : list R) : R :=
  fold_right Rplus 0 (map Rabs x).

(** Applying the index permutation [p] to a vector: entry [k] of the result
    is entry [p[k]] of [v]. *)
Definition permute (p : list nat) (v : list R) : list R :=
  map (fun i => nth i v 0) p.

(** ** Problem data *)

(** The compressed-row matrix handed to [Sparse<T, int, ROW>]: the three
    buffers filled by the generator and the number of nonzeros it returns. *)
Record Sparse := mkSparse {
  val : list R;
  row_ptr : list nat;
  col_ind : list nat;
  nnz : nat
}.

Module Pogs.

(** The function kinds the driver uses. *)
Inductive Function := kAbs | kSquare.

(** Modelled from the spec: the descriptor type [FunctionObj<T>] is declared
    in pogs.h, which is not among the sources.  The record keeps the kind
    [h], the two further constructor arguments the driver passes for a loss
    term ([a], and the offset [b]) and the scale [c] the driver assigns at
    line 90. *)
Record FunctionObj := mkFunctionObj {
  h : Function;
  a : R;
  b : R;
  c : R
}.

(** Modelled from the spec: the three-argument constructor used at line 75;
    a loss descriptor has scale 1. *)
Definition FunctionObj3 (h0 : Function) (a0 b0 : R) : FunctionObj :=
  mkFunctionObj h0 a0 b0 1.

(** Modelled from the spec: the one-argument constructor used at line 79;
    the scale of a penalty descriptor starts at a placeholder (here 1) and
    is overwritten at every path step. *)
Definition FunctionObj1 (h0 : Function) : FunctionObj :=
  mkFunctionObj h0 1 0 1.

(** The assignment [fo.c = lambda]. *)
Definition set_c (lambda : R) (fo : FunctionObj) : FunctionObj :=
  mkFunctionObj (h fo) (a fo) (b fo) lambda.

(** [PogsData<T, Sparse<T, int, ROW>>]: the matrix, the dimensions, the
    descriptor lists and the solution buffers.  In the source
    [pogs_data.x] and [pogs_data.y] point into the driver's vectors [x]
    and [y]; the model keeps the single shared copy here. *)
Record PogsData := mkPogsData {
  A : Sparse;
  m : nat;
  n : nat;
  f : list FunctionObj;
  g : list FunctionObj;
  x : list R;
  y : list R
}.

(** What one call of the engine leaves behind: entry [j] of the [x] and
    [y] buffers and its own internal state. *)
Record SolveResult (F : Type) := mkSolveResult {
  out_x : nat -> R;
  out_y : nat -> R;
  out_factors : F
}.
Arguments mkSolveResult {F} _ _ _.
Arguments out_x {F} _ _.
Arguments out_y {F} _ _.
Arguments out_factors {F} _.

(** Modelled from the spec: the solver engine ([AllocSparseFactors],
    [Solve]) is declared in pogs.h and not among the sources.  By its
    contract it reads the matrix and the descriptors, reads and writes the
    buffers [x] and [y], and keeps a factorisation state of its own
    between calls. *)
Record Engine := mkEngine {
  Factors : Type;
  AllocSparseFactors : PogsData -> Factors;
  Solve : PogsData -> Factors -> SolveResult Factors
}.

End Pogs.

(** The driver's variables that live across path steps. *)
Record Driver (E : Pogs.Engine) := mkDriver {
  pogs_data : Pogs.PogsData;
  b : list R;
  x_last : list R;
  factors : Pogs.Factors E
}.
Arguments mkDriver {E} _ _ _ _.
Arguments pogs_data {E} _.
Arguments b {E} _.
Arguments x_last {E} _.
Arguments factors {E} _.

(** What the driver does, in order: library calls, the solver invocation of
    step [i] (with the data it is given and the [x] it leaves), and the
    outcome of the test at line 94 (with its two operands). *)
Inductive event :=
| EvLog (arg : R)
| EvExp (arg : R)
| EvPrintf (lambda : R)
| EvSolve (i : nat) (lambda : R) (pd : Pogs.PogsData) (x_out : list R)
| EvTest (i : nat) (x x_last : list R) (stop : bool).

(** ** The maximal penalty: lines 57-66 *)

(** [u = A^T b] by accumulation over the nonzeros. *)
Definition compute_u (m n : nat) (A : Sparse) (b : list R) : list R :=
  for_range 0 m (fun i u =>
    for_range (nth i (row_ptr A) 0%nat) (nth (i + 1) (row_ptr A) 0%nat) (fun j u =>
      alter (fun v => v + nth j (val A) 0 * nth i b 0) (nth j (col_ind A) 0%nat) u) u)
    (repeat 0 n).

Definition compute_lambda_max (n : nat) (u : list R) : R :=
  for_range 0 n (fun i lambda_max => std_max lambda_max (Rabs (nth i u 0))) 0.

(** The specification's reading: the nonzeros of [A] as (row, column, value)
    triples, and entry [col] of [A^T b] as the sum of [v * b[row]] over the
    nonzeros of that column. *)
Definition nonzeros (m : nat) (A : Sparse) : list (nat * nat * R) :=
  flat_map (fun i =>
    map (fun j => (i, nth j (col_ind A) 0%nat, nth j (val A) 0))
        (seq (nth i (row_ptr A) 0%nat)
             (nth (i + 1) (row_ptr A) 0%nat - nth i (row_ptr A) 0%nat)))
    (seq 0 m).

Definition At_b_entry (m : nat) (A : Sparse) (b : list R) (col : nat) : R :=
  fold_right Rplus 0
    (map (fun e : nat * nat * R =>
            let '(i, j, v) := e in if Nat.eqb j col then v * nth i b 0 else 0)
         (nonzeros m A)).

(** ** The schedule: lines 37 and 85-86 *)

Definition nlambda : nat := 100.

(** The argument of [std::exp] at step [i]. *)
Definition lambda_arg (lambda_max : R) (i : nat) : R :=
  (ln lambda_max * INR (nlambda - 1 - i) + 1 / 100 * ln lambda_max * INR i)
  / INR (nlambda - 1).

Definition lambda_at (lambda_max : R) (i : nat) : R :=
  exp (lambda_arg lambda_max i).

(** ** The path loop: lines 84-97 *)

(** Lines 89-90: the scale of every column descriptor becomes [lambda]. *)
Definition set_scales (n : nat) (lambda : R) (g : list Pogs.FunctionObj)
  : list Pogs.FunctionObj :=
  for_range 0 n (fun i g => alter (Pogs.set_c lambda) i g) g.

(** The call [Solve(&pogs_data)]: the engine's result is written into the
    buffers [x] and [y], whose sizes do not change. *)
Definition call_Solve {E : Pogs.Engine} (st : Driver E) : Driver E :=
  let pd := pogs_data st in
  let r := Pogs.Solve E pd (factors st) in
  mkDriver
    (Pogs.mkPogsData (Pogs.A pd) (Pogs.m pd) (Pogs.n pd) (Pogs.f pd) (Pogs.g pd)
       (map (Pogs.out_x r) (seq 0 (length (Pogs.x pd))))
       (map (Pogs.out_y r) (seq 0 (length (Pogs.y pd)))))
    (b st) (x_last st) (Pogs.out_factors r).

Definition with_g {E : Pogs.Engine} (st : Driver E) (g : list Pogs.FunctionObj)
  : Driver E :=
  let pd := pogs_data st in
  mkDriver
    (Pogs.mkPogsData (Pogs.A pd) (Pogs.m pd) (Pogs.n pd) (Pogs.f pd) g
       (Pogs.x pd) (Pogs.y pd))
    (b st) (x_last st) (factors st).

(** Line 96: [x_last = x]. *)
Definition save_x {E : Pogs.Engine} (st : Driver E) : Driver E :=
  mkDriver (pogs_data st) (b st) (Pogs.x (pogs_data st)) (factors st).

(** Lines 85-92 of step [i]: the schedule value is computed, written into
    the column descriptors, and the solver is invoked. *)
Definition step_state {E : Pogs.Engine} (n : nat) (lambda_max : R) (i : nat)
  (st : Driver E) : Driver E :=
  call_Solve
    (with_g st (set_scales n (lambda_at lambda_max i) (Pogs.g (pogs_data st)))).

(** The test of line 94 after the solve of step [i]. *)
Definition step_stop {E : Pogs.Engine} (n : nat) (lambda_max : R) (i : nat)
  (st : Driver E) : bool :=
  let st2 := step_state n lambda_max i st in
  converged (Pogs.x (pogs_data st2)) (x_last st2).

Definition step_events {E : Pogs.Engine} (n : nat) (lambda_max : R) (i : nat)
  (st : Driver E) : list event :=
  let lambda := lambda_at lambda_max i in
  let st1 := with_g st (set_scales n lambda (Pogs.g (pogs_data st))) in
  let st2 := step_state n lambda_max i st in
  [EvLog lambda_max; EvLog lambda_max; EvExp (lambda_arg lambda_max i);
   EvPrintf lambda;
   EvSolve i lambda (pogs_data st1) (Pogs.x (pogs_data st2));
   EvTest i (Pogs.x (pogs_data st2)) (x_last st2) (step_stop n lambda_max i st)].

(** The body of the loop up to and including the test of line 94: the new
    state, what happened, and whether the [break] is taken. *)
Definition path_step {E : Pogs.Engine} (n : nat) (lambda_max : R) (i : nat)
  (st : Driver E) : Driver E * list event * bool :=
  (step_state n lambda_max i st, step_events n lambda_max i st,
   step_stop n lambda_max i st).

(** [for (i = ...; i < nlambda; ++i) { ...; if (...) break; x_last = x; }]
    with [todo] iterations left. *)
Fixpoint path_loop {E : Pogs.Engine} (n : nat) (lambda_max : R) (todo i : nat)
  (st : Driver E) : Driver E * list event :=
  match todo with
  | O => (st, [])
  | S todo' =>
      let '(st1, evs, stop) := path_step n lambda_max i st in
      if stop then (st1, evs)
      else
        let '(st2, evs') := path_loop n lambda_max todo' (S i) (save_x st1) in
        (st2, evs ++ evs')
  end.

(** The state in which the loop is entered: lines 38-81, for the matrix [A]
    and the observations [b] the generators produced. *)
Definition initial {E : Pogs.Engine} (m n : nat) (A : Sparse) (b : list R)
  : Driver E :=
  let pd :=
    Pogs.mkPogsData A m n
      (for_range 0 m
         (fun i f => f ++ [Pogs.FunctionObj3 Pogs.kSquare 1 (nth i b 0)]) [])
      (for_range 0 n (fun i g => g ++ [Pogs.FunctionObj1 Pogs.kAbs]) [])
      (repeat 0 n) (repeat 0 m) in
  mkDriver pd b (repeat T_max n) (Pogs.AllocSparseFactors E pd).

(** [LassoPath(m, n, nnz)] after the random generation of [A] and [b]: the
    final state of the driver and the record of what it did.  The release
    of the engine's factors after the loop and the elapsed time returned
    (read from the timer) are not modelled. *)
Definition LassoPath (E : Pogs.Engine) (m n : nat) (A : Sparse) (b : list R)
  : Driver E * list event :=
  let lambda_max := compute_lambda_max n (compute_u m n A b) in
  path_loop n lambda_max nlambda 0 (initial m n A b).

(** ** Reading the record of a run *)

Definition is_solve (e : event) : bool :=
  match e with EvSolve _ _ _ _ => true | _ => false end.

Definition is_log (e : event) : bool :=
  match e with EvLog _ => true | _ => false end.

(** The number of solver invocations, i.e. of path steps. *)
Definition steps (tr : list event) : nat := length (filter is_solve tr).

(** The (lambda, x) pairs produced, in order. *)
Definition pairs (tr : list event) : list (R * list R) :=
  flat_map (fun e => match e with
                     | EvSolve _ lambda _ x_out => [(lambda, x_out)]
                     | _ => []
                     end) tr.

(** The test of line 94 fired at step [i]. *)
Definition fires (tr : list event) (i : nat) : Prop :=
  exists x xl, In (EvTest i x xl true) tr.

(** The iterate the solver produced at step [i], if that step was taken. *)
Fixpoint x_at (tr : list event) (i : nat) : option (list R) :=
  match tr with
  | [] => None
  | EvSolve k _ _ x_out :: tr' => if Nat.eqb k i then Some x_out else x_at tr' i
  | _ :: tr' => x_at tr' i
  end.

(** ** Engines and inputs used in examples *)

(** An engine that leaves the buffers as they are. *)
Definition idle_engine : Pogs.Engine :=
  Pogs.mkEngine unit (fun _ => tt)
    (fun pd _ => Pogs.mkSolveResult (fun j => nth j (Pogs.x pd) 0)
                                    (fun j => nth j (Pogs.y pd) 0) tt).

(** An engine that writes [v] into every entry of [x]. *)
Definition const_engine (v : R) : Pogs.Engine :=
  Pogs.mkEngine unit (fun _ => tt)
    (fun pd _ => Pogs.mkSolveResult (fun _ => v)
                                    (fun j => nth j (Pogs.y pd) 0) tt).

(** An engine that counts its calls [k] and answers [k + 1] in every entry
    of [x], except that from call 99 on it repeats the answer 99. *)
Definition counting_engine : Pogs.Engine :=
  Pogs.mkEngine nat (fun _ => 0%nat)
    (fun pd k => Pogs.mkSolveResult
                   (fun _ => INR (Nat.min (k + 1) 99))
                   (fun j => nth j (Pogs.y pd) 0) (S k)).

(** The 1x1 matrix [[1]]. *)
Definition A_one : Sparse := mkSparse [1] [0; 1]%nat [0%nat] 1.

(** The matrix [[2,0],[0,3]] of the specification's example. *)
Definition A_diag23 : Sparse := mkSparse [2; 3] [0; 1; 2]%nat [0; 1]%nat 2.

(** ** Invariants of the path loop *)

(** What a run leaves untouched between the states [st] and [st']: the
    observations, the matrix, the dimensions and the row descriptors; the
    column descriptors are those of [g0] up to their scale. *)
Definition frame_of {E : Pogs.Engine} (g0 : list Pogs.FunctionObj)
  (st st' : Driver E) : Prop :=
  b st' = b st /\
  Pogs.A (pogs_data st') = Pogs.A (pogs_data st) /\
  Pogs.m (pogs_data st') = Pogs.m (pogs_data st) /\
  Pogs.n (pogs_data st') = Pogs.n (pogs_data st) /\
  Pogs.f (pogs_data st') = Pogs.f (pogs_data st) /\
  exists c0, Pogs.g (pogs_data st') = map (Pogs.set_c c0) g0.

(** Before step [i] of a run with [counting_engine] on one column. *)
Definition counting_inv (i : nat) (st : Driver counting_engine) : Prop :=
  factors st = i /\
  length (Pogs.x (pogs_data st)) = 1%nat /\
  x_last st = [if Nat.eqb i 0 then T_max else INR i].

(** Before any step of a run without columns. *)
Definition empty_inv {E : Pogs.Engine} (i : nat) (st : Driver E) : Prop :=
  Pogs.x (pogs_data st) = [] /\ x_last st = [].

(** ** The reductions at [T = double] *)

(** [MaxDiff], [Asum] and the test of line 94 in binary64 arithmetic, the
    loops run in index order (one thread). *)
Module Double.
Import PrimFloat.

Definition std_max (a b : float) : float := if ltb a b then b else a.

Definition MaxDiff (v1 v2 : list float) : float :=
  for_range 0 (length v1)
    (fun i max_diff =>
       std_max max_diff (abs (sub (nth i v1 0%float) (nth i v2 0%float))))
    0%float.

Definition Asum (v : list float) : float :=
  for_range 0 (length v) (fun i asum => add asum (abs (nth i v 0%float)))
    0%float.

(** The double nearest to [1e-3]. *)
Definition thousandth : float := 0x1.0624dd2f1a9fcp-10%float.

Definition converged (x x_last : list float) : bool :=
  ltb (MaxDiff x x_last) (mul thousandth (Asum x)).

Definition permute (p : list nat) (v : list float) : list float :=
  map (fun i => nth i v 0%float) p.

(** [std::numeric_limits<double>::max()]. *)
Definition max : float := 0x1.fffffffffffffp+1023%float.

Definition big_first : list float := [1e16; 1; 1]%float.
Definition big_last : list float := [1; 1; 1e16]%float.
Definition half_max3 : list float := repeat (div max 2%float) 3.
Definition sixth_max3 : list float := repeat (div max 6%float) 3.
Definition half_max1 : list float := [div max 2%float].
Definition neg_half_max1 : list float := [opp (div max 2%float)].

End Double.

(** ** The two instantiations of the template *)

Inductive scalar_type := T_float | T_double.

(** [std::numeric_limits<T>::max()] for [float] and for [double]. *)
Definition numeric_limits_max (T : scalar_type) : R :=
  match T with
  | T_float => IZR (2 ^ 128 - 2 ^ 104)
  | T_double => T_max
  end.
Arguments numeric_limits_max : simpl never.

(** The state in which [LassoPath<T>] enters the loop: as [initial], with
    [x_last] filled with the largest value of [T] (line 43). *)
Definition initial_for {E : Pogs.Engine} (T : scalar_type) (m n : nat)
  (A : Sparse) (b : list R) : Driver E :=
  mkDriver (pogs_data (initial (E := E) m n A b)) b
    (repeat (numeric_limits_max T) n) (factors (initial (E := E) m n A b)).

(** [LassoPath<T>(m, n, nnz)]; [LassoPath] is the instance at [double]. *)
Definition LassoPath_for (T : scalar_type) (E : Pogs.Engine) (m n : nat)
  (A : Sparse) (b : list R) : Driver E * list event :=
  let lambda_max := compute_lambda_max n (compute_u m n A b) in
  path_loop n lambda_max nlambda 0 (initial_for T m n A b).

(** ** Basic facts about the helpers *)

Lemma std_max_Rmax (a b : R) : std_max a b = Rmax a b.
Proof.
  unfold std_max, Rmax.
  destruct (Rlt_dec a b), (Rle_dec a b); lra.
Qed.

Lemma T_max_pos : 0 < T_max.
Proof. unfold T_max. apply IZR_lt. reflexivity. Qed.

Lemma for_range_snoc {S : Type} (lo k : nat) (body : nat -> S -> S) (s : S) :
  for_range lo (lo + Datatypes.S k) body s
  = body (lo + k)%nat (for_range lo (lo + k) body s).
Proof.
  unfold for_range.
  replace (lo + Datatypes.S k - lo)%nat with (k + 1)%nat by lia.
  replace (lo + k - lo)%nat with k by lia.
  rewrite seq_app, fold_left_app. reflexivity.
Qed.

Lemma for_range_ext {S : Type} (lo hi : nat) (body body' : nat -> S -> S) (s : S) :
  (forall i s, body i s = body' i s) ->
  for_range lo hi body s = for_range lo hi body' s.
Proof.
  intros Hext. unfold for_range. generalize (seq lo (hi - lo)) s.
  intros l. induction l as [|i l IH]; intros s0; simpl; [reflexivity|].
  rewrite Hext. apply IH.
Qed.

Lemma for_range_map {S : Type} (n : nat) (g : nat -> S) (op : S -> S -> S) (s : S) :
  for_range 0 n (fun i acc => op acc (g i)) s
  = fold_left op (map g (seq 0 n)) s.
Proof.
  unfold for_range. rewrite Nat.sub_0_r.
  generalize (seq 0 n) s. clear.
  intros l. induction l as [|i l IH]; intros s; simpl; [reflexivity|].
  apply IH.
Qed.

Lemma map_nth_indices {A B : Type} (g : A -> B) (l : list A) (d : A) :
  map (fun i => g (nth i l d)) (seq 0 (length l)) = map g l.
Proof.
  induction l as [|a l IH]; simpl; [reflexivity|].
  f_equal. rewrite <- seq_shift, map_map. exact IH.
Qed.

(** Folding a commutative, associative operation is stable under
    permutation of the list folded over. *)
Section FoldPerm.
Variable op : R -> R -> R.
Hypothesis op_swap : forall a b c, op (op a b) c = op (op a c) b.

Lemma fold_left_perm (l l' : list R) :
  Permutation l l' -> forall s, fold_left op l s = fold_left op l' s.
Proof.
  induction 1 as [|a l l' _ IH|a b l|l l' l'' _ IH1 _ IH2]; intros s; simpl.
  - reflexivity.
  - apply IH.
  - rewrite op_swap. reflexivity.
  - rewrite IH1. apply IH2.
Qed.
End FoldPerm.

Lemma Rmax_swap (a b c : R) : Rmax (Rmax a b) c = Rmax (Rmax a c) b.
Proof. unfold Rmax. repeat destruct (Rle_dec _ _); lra. Qed.

Lemma Rplus_swap (a b c : R) : a + b + c = a + c + b.
Proof. lra. Qed.


(** ** The reductions agree with their specification *)

Lemma fold_left_Rmax_spec (l : list R) (s : R) :
  fold_left Rmax l s = Rmax s (fold_right Rmax s l).
Proof.
  revert s. induction l as [|a l IH]; intros s; simpl.
  - unfold Rmax. destruct (Rle_dec s s); lra.
  - rewrite IH. clear IH.
    assert (H : forall t, s <= t -> fold_right Rmax t l = Rmax t (fold_right Rmax s l)).
    { intros t Ht. induction l as [|c l IHl]; simpl.
      - unfold Rmax. destruct (Rle_dec t s); lra.
      - rewrite IHl. unfold Rmax. repeat destruct (Rle_dec _ _); lra. }
    rewrite (H (Rmax s a)) by apply Rmax_l.
    unfold Rmax. repeat destruct (Rle_dec _ _); lra.
Qed.

Lemma fold_right_Rmax_ge (l : list R) (s : R) : s <= fold_right Rmax s l.
Proof.
  induction l as [|a l IH]; simpl; [lra|].
  eapply Rle_trans; [exact IH | apply Rmax_r].
Qed.

Lemma fold_left_Rmax_0 (l : list R) :
  fold_left Rmax l 0 = fold_right Rmax 0 l.
Proof.
  rewrite fold_left_Rmax_spec. apply Rmax_right. apply fold_right_Rmax_ge.
Qed.

Lemma fold_left_Rplus_spec (l : list R) (s : R) :
  fold_left Rplus l s = s + fold_right Rplus 0 l.
Proof.
  revert s. induction l as [|a l IH]; intros s; simpl; [lra|].
  rewrite IH. lra.
Qed.

Lemma MaxDiff_indices (v1 v2 : list R) :
  MaxDiff v1 v2
  = fold_left Rmax
      (map (fun i => Rabs (nth i v1 0 - nth i v2 0)) (seq 0 (length v1))) 0.
Proof.
  unfold MaxDiff.
  rewrite <- (for_range_map (length v1)
                (fun i => Rabs (nth i v1 0 - nth i v2 0)) Rmax 0).
  apply for_range_ext. intros i s. apply std_max_Rmax.
Qed.

Lemma Asum_indices (v : list R) :
  Asum v = fold_left Rplus (map (fun i => Rabs (nth i v 0)) (seq 0 (length v))) 0.
Proof.
  unfold Asum.
  apply (for_range_map (length v) (fun i => Rabs (nth i v 0)) Rplus 0).
Qed.

Lemma combine_indices (v1 v2 : list R) :
  length v1 = length v2 ->
  map (fun i => (nth i v1 0, nth i v2 0)) (seq 0 (length v1)) = combine v1 v2.
Proof.
  revert v2. induction v1 as [|a v1 IH]; intros [|c v2] Hlen; simpl in *;
    try discriminate; [reflexivity|].
  f_equal. rewrite <- seq_shift, map_map. apply IH. lia.
Qed.

Lemma MaxDiff_spec (v1 v2 : list R) :
  length v1 = length v2 -> MaxDiff v1 v2 = max_abs_diff v1 v2.
Proof.
  intros Hlen. rewrite MaxDiff_indices, fold_left_Rmax_0.
  unfold max_abs_diff. rewrite <- (combine_indices v1 v2 Hlen), map_map.
  reflexivity.
Qed.

Lemma Asum_spec (v : list R) : Asum v = abs_sum v.
Proof.
  rewrite Asum_indices, fold_left_Rplus_spec.
  unfold abs_sum. rewrite (map_nth_indices Rabs v 0). lra.
Qed.

Lemma converged_iff (x xl : list R) :
  converged x xl = true <-> MaxDiff x xl < 1 / 1000 * Asum x.
Proof.
  unfold converged. destruct (Rlt_dec _ _); split; intros; try discriminate; tauto.
Qed.

Lemma converged_false_iff (x xl : list R) :
  converged x xl = false <-> 1 / 1000 * Asum x <= MaxDiff x xl.
Proof.
  unfold converged. destruct (Rlt_dec _ _); split; intros; try discriminate;
    try reflexivity; lra.
Qed.

(** Evaluating [Rabs] and [Rmax] on closed arithmetic. *)
Ltac eval_reals :=
  unfold Rmax, Rabs;
  repeat (match goal with
          | |- context [Rcase_abs ?r] => destruct (Rcase_abs r)
          | |- context [Rle_dec ?r ?s] => destruct (Rle_dec r s)
          end);
  try lra.

(** ** The shape of a run of the path loop *)

Section PathLoop.
Context {E : Pogs.Engine}.
Variables (n : nat) (lambda_max : R).

Lemma path_loop_S (todo i : nat) (st : Driver E) :
  path_loop n lambda_max (S todo) i st
  = if step_stop n lambda_max i st
    then (step_state n lambda_max i st, step_events n lambda_max i st)
    else (fst (path_loop n lambda_max todo (S i)
                 (save_x (step_state n lambda_max i st))),
          step_events n lambda_max i st
          ++ snd (path_loop n lambda_max todo (S i)
                    (save_x (step_state n lambda_max i st)))).
Proof.
  simpl. destruct (step_stop n lambda_max i st); [reflexivity|].
  destruct (path_loop n lambda_max todo (S i) _). reflexivity.
Qed.

Lemma steps_app (tr tr' : list event) : steps (tr ++ tr') = (steps tr + steps tr')%nat.
Proof. unfold steps. rewrite filter_app, length_app. reflexivity. Qed.

Lemma steps_step_events (i : nat) (st : Driver E) :
  steps (step_events n lambda_max i st) = 1%nat.
Proof. reflexivity. Qed.

Lemma test_in_step_events (i : nat) (st : Driver E) (j : nat)
  (xc xl : list R) (r : bool) :
  In (EvTest j xc xl r) (step_events n lambda_max i st) ->
  j = i /\ xc = Pogs.x (pogs_data (step_state n lambda_max i st)) /\
  xl = x_last st /\ r = step_stop n lambda_max i st.
Proof.
  unfold step_events. intros Hin.
  repeat (destruct Hin as [Hin|Hin]; try discriminate); [|contradiction].
  injection Hin as <- <- <- <-. repeat split.
Qed.

Lemma step_events_test (i : nat) (st : Driver E) :
  In (EvTest i (Pogs.x (pogs_data (step_state n lambda_max i st))) (x_last st)
        (step_stop n lambda_max i st))
     (step_events n lambda_max i st).
Proof. unfold step_events. do 5 right. left. reflexivity. Qed.

Lemma step_stop_converged (i : nat) (st : Driver E) :
  step_stop n lambda_max i st
  = converged (Pogs.x (pogs_data (step_state n lambda_max i st))) (x_last st).
Proof. reflexivity. Qed.

(** The loop makes at most [todo] steps. *)
Lemma steps_le_todo (todo i : nat) (st : Driver E) :
  (steps (snd (path_loop n lambda_max todo i st)) <= todo)%nat.
Proof.
  revert i st. induction todo as [|todo IH]; intros i st; [unfold steps; simpl; lia|].
  rewrite path_loop_S. destruct (step_stop n lambda_max i st); cbn [snd].
  - rewrite steps_step_events. lia.
  - rewrite steps_app, steps_step_events.
    specialize (IH (S i) (save_x (step_state n lambda_max i st))). lia.
Qed.

(** A run of a nonempty schedule starts by evaluating the logarithm of
    [lambda_max] and invokes the solver. *)
Lemma run_starts_with_log (todo i : nat) (st : Driver E) :
  exists tr, snd (path_loop n lambda_max (S todo) i st) = EvLog lambda_max :: tr.
Proof.
  rewrite path_loop_S. destruct (step_stop n lambda_max i st); cbn [snd];
    eexists; reflexivity.
Qed.

Lemma run_solves_once (todo i : nat) (st : Driver E) :
  (1 <= steps (snd (path_loop n lambda_max (S todo) i st)))%nat.
Proof.
  rewrite path_loop_S. destruct (step_stop n lambda_max i st); cbn [snd];
    rewrite ?steps_app, ?steps_step_events; lia.
Qed.

(** Every test recorded belongs to a step taken, carries the outcome of
    the comparison of its operands, and decides whether the loop goes on:
    after a [true] no step follows, after a [false] the next step is taken
    unless the schedule is exhausted. *)
Lemma tests_of_run (todo i : nat) (st : Driver E) (j : nat) (xc xl : list R)
  (r : bool) :
  In (EvTest j xc xl r) (snd (path_loop n lambda_max todo i st)) ->
  (i <= j < i + steps (snd (path_loop n lambda_max todo i st)))%nat /\
  r = converged xc xl /\
  (r = true -> (i + steps (snd (path_loop n lambda_max todo i st)) = j + 1)%nat) /\
  (r = false -> (j + 1 < i + todo)%nat ->
   (j + 1 < i + steps (snd (path_loop n lambda_max todo i st)))%nat).
Proof.
  revert i st. induction todo as [|todo IH]; intros i st; [simpl; tauto|].
  rewrite path_loop_S.
  destruct (step_stop n lambda_max i st) eqn:Hstop; cbn [snd].
  - intros Hin. apply test_in_step_events in Hin.
    destruct Hin as (-> & -> & -> & ->). rewrite steps_step_events.
    split; [lia|]. split; [apply step_stop_converged|].
    split; [lia|]. rewrite Hstop. discriminate.
  - intros Hin. rewrite steps_app, steps_step_events.
    apply in_app_or in Hin. destruct Hin as [Hin|Hin].
    + apply test_in_step_events in Hin.
      destruct Hin as (-> & -> & -> & ->).
      split; [lia|]. split; [apply step_stop_converged|].
      split; [rewrite Hstop; discriminate|].
      intros _ Hlt. destruct todo as [|todo]; [lia|].
      pose proof (run_solves_once todo (S i)
                    (save_x (step_state n lambda_max i st))). lia.
    + specialize (IH (S i) _ Hin). destruct IH as (Hrange & Hr & Ht & Hf).
      split; [lia|]. split; [exact Hr|]. split.
      * intros Hrt. specialize (Ht Hrt). lia.
      * intros Hrf Hlt. specialize (Hf Hrf). lia.
Qed.

(** A run that makes fewer steps than it may ended on a test that fired. *)
Lemma short_run_fired (todo i : nat) (st : Driver E) :
  (steps (snd (path_loop n lambda_max todo i st)) < todo)%nat ->
  (1 <= steps (snd (path_loop n lambda_max todo i st)))%nat /\
  fires (snd (path_loop n lambda_max todo i st))
        (i + steps (snd (path_loop n lambda_max todo i st)) - 1).
Proof.
  revert i st. induction todo as [|todo IH]; intros i st; [unfold steps; simpl; lia|].
  rewrite path_loop_S.
  destruct (step_stop n lambda_max i st) eqn:Hstop; cbn [snd].
  - intros _. rewrite steps_step_events. split; [lia|].
    replace (i + 1 - 1)%nat with i by lia.
    eexists _, _. rewrite <- Hstop. apply step_events_test.
  - rewrite steps_app, steps_step_events. intros Hlt.
    destruct (IH (S i) (save_x (step_state n lambda_max i st))) as [H1 (xc & xl & Hin)];
      [lia|].
    split; [lia|]. exists xc, xl. apply in_or_app. right.
    replace (i + (1 + steps (snd (path_loop n lambda_max todo (S i)
               (save_x (step_state n lambda_max i st))))) - 1)%nat
      with (S i + steps (snd (path_loop n lambda_max todo (S i)
               (save_x (step_state n lambda_max i st)))) - 1)%nat by lia.
    exact Hin.
Qed.


(** While an invariant keeps the test from firing, the loop keeps going:
    [k] steps are taken without a stop and the rest of the schedule is run
    from the state reached. *)
Lemma path_loop_continue (Inv : nat -> Driver E -> Prop) (bound : nat) :
  (forall i st, (i < bound)%nat -> Inv i st ->
     step_stop n lambda_max i st = false /\
     Inv (S i) (save_x (step_state n lambda_max i st))) ->
  forall k todo i st, Inv i st -> (i + k <= bound)%nat ->
  exists st' tr,
    Inv (i + k)%nat st' /\ steps tr = k /\
    (forall j, ~ fires tr j) /\
    path_loop n lambda_max (k + todo) i st
    = (fst (path_loop n lambda_max todo (i + k) st'),
       tr ++ snd (path_loop n lambda_max todo (i + k) st')).
Proof.
  intros Hstep k. induction k as [|k IH]; intros todo i st Hinv Hle.
  - exists st, []. rewrite Nat.add_0_r. repeat split; try assumption.
    + intros j (xc & xl & []).
    + simpl. destruct (path_loop n lambda_max todo i st). reflexivity.
  - destruct (Hstep i st) as [Hstop Hinv']; [lia|assumption|].
    destruct (IH todo (S i) _ Hinv') as (st' & tr & Hi & Hs & Hf & Heq); [lia|].
    exists st', (step_events n lambda_max i st ++ tr).
    replace (i + S k)%nat with (S i + k)%nat by lia.
    split; [exact Hi|]. split; [rewrite steps_app, steps_step_events; lia|].
    split.
    + intros j (xc & xl & Hin). apply in_app_or in Hin. destruct Hin as [Hin|Hin].
      * apply test_in_step_events in Hin. destruct Hin as (_ & _ & _ & Hr).
        congruence.
      * apply (Hf j). exists xc, xl. exact Hin.
    + change (S k + todo)%nat with (S (k + todo)).
      rewrite path_loop_S, Hstop, Heq. cbn [fst snd].
      rewrite <- app_assoc. reflexivity.
Qed.
End PathLoop.

Lemma length_pairs_steps (tr : list event) : length (pairs tr) = steps tr.
Proof.
  unfold pairs, steps. induction tr as [|e tr IH]; [reflexivity|].
  destruct e; simpl; rewrite ?IH; reflexivity.
Qed.

Lemma fires_app_r (tr tr' : list event) (i : nat) :
  fires tr' i -> fires (tr ++ tr') i.
Proof. intros (xc & xl & Hin). exists xc, xl. apply in_or_app. right. exact Hin. Qed.

(** ** C6: the number of path steps *)

(** C6 (amended): for every execution of the path driver the number of path
    steps (solver invocations, equally produced (lambda, x) pairs) is at most
    [nlambda]; the driver makes fewer than [nlambda] steps if and only if the
    convergence test fires at some step before the last one; and if the test
    never fires it exhausts the schedule, making [nlambda] steps. *)
Theorem C6_path_steps (E : Pogs.Engine) (m n : nat) (A : Sparse) (b : list R) :
  let tr := snd (LassoPath E m n A b) in
  (steps tr <= nlambda)%nat /\
  length (pairs tr) = steps tr /\
  ((steps tr < nlambda)%nat <-> exists i, (i < nlambda - 1)%nat /\ fires tr i) /\
  ((forall i, ~ fires tr i) -> steps tr = nlambda).
Proof.
  cbv zeta. unfold LassoPath.
  set (lm := compute_lambda_max n (compute_u m n A b)).
  set (st := initial m n A b).
  set (tr := snd (path_loop n lm nlambda 0 st)).
  assert (Hle : (steps tr <= nlambda)%nat) by apply steps_le_todo.
  assert (Hshort : (steps tr < nlambda)%nat ->
                   exists i, (i < nlambda - 1)%nat /\ fires tr i).
  { intros Hlt. destruct (short_run_fired n lm nlambda 0 st Hlt) as [H1 Hf].
    fold tr in H1, Hf.
    exists (0 + steps tr - 1)%nat. split; [lia | exact Hf]. }
  split; [exact Hle|]. split; [apply length_pairs_steps|]. split; [split|].
  - exact Hshort.
  - intros (i & Hi & xc & xl & Hin).
    destruct (tests_of_run n lm nlambda 0 st i xc xl true Hin) as (_ & _ & Ht & _).
    specialize (Ht eq_refl). fold st tr in Ht. lia.
  - intros Hnever. destruct (Nat.eq_dec (steps tr) nlambda) as [|Hne]; [assumption|].
    destruct Hshort as (i & _ & Hf); [lia|]. destruct (Hnever i Hf).
Qed.

(** ** Reductions on short vectors *)

Lemma MaxDiff_nil : MaxDiff [] [] = 0.
Proof. reflexivity. Qed.

Lemma Asum_nil : Asum [] = 0.
Proof. reflexivity. Qed.

Lemma converged_nil : converged [] [] = false.
Proof. apply converged_false_iff. rewrite MaxDiff_nil, Asum_nil. lra. Qed.

Lemma MaxDiff_singleton (v w : R) : MaxDiff [v] [w] = Rabs (v - w).
Proof.
  unfold MaxDiff, for_range. simpl. rewrite std_max_Rmax.
  apply Rmax_right. apply Rabs_pos.
Qed.

Lemma Asum_singleton (v : R) : Asum [v] = Rabs v.
Proof. unfold Asum, for_range. simpl. lra. Qed.

Lemma T_max_large : 1000 <= T_max.
Proof. unfold T_max. apply IZR_le. discriminate. Qed.

(** ** An engine whose iterates settle exactly at the last step *)

Lemma counting_step_x (n : nat) (lm : R) (i : nat) (st : Driver counting_engine) :
  counting_inv i st ->
  Pogs.x (pogs_data (step_state n lm i st)) = [INR (Nat.min (i + 1) 99)].
Proof.
  intros (Hf & Hlen & _). unfold step_state, call_Solve, with_g. cbn.
  rewrite Hlen, Hf. reflexivity.
Qed.

Lemma counting_inv_step (n : nat) (lm : R) (i : nat) (st : Driver counting_engine) :
  (i < 99)%nat -> counting_inv i st ->
  step_stop n lm i st = false /\
  counting_inv (S i) (save_x (step_state n lm i st)).
Proof.
  intros Hi Hinv. pose proof (counting_step_x n lm i st Hinv) as Hx.
  destruct Hinv as (Hf & Hlen & Hlast).
  replace (Nat.min (i + 1) 99) with (S i) in Hx by lia.
  split.
  - rewrite step_stop_converged, Hx, Hlast.
    apply converged_false_iff. rewrite MaxDiff_singleton, Asum_singleton.
    assert (Hpos : 0 < INR (S i)) by (apply lt_0_INR; lia).
    assert (Hub : INR (S i) <= 99).
    { replace 99 with (INR 99) by (simpl; lra). apply le_INR. lia. }
    rewrite (Rabs_right (INR (S i))) by lra.
    destruct (Nat.eqb i 0) eqn:Hi0.
    + apply Nat.eqb_eq in Hi0. rewrite Hi0. change (INR 1) with 1.
      pose proof T_max_large. rewrite Rabs_left by lra. lra.
    + rewrite S_INR. replace (INR i + 1 - INR i) with 1 by lra.
      rewrite Rabs_R1. rewrite S_INR in Hub. lra.
  - unfold counting_inv, save_x. cbn [factors pogs_data x_last].
    rewrite Hx. split; [|split; reflexivity].
    unfold step_state, call_Solve, with_g. cbn. rewrite Hf. reflexivity.
Qed.

Lemma counting_initial : counting_inv 0 (initial 1 1 A_one [2]).
Proof. repeat split. Qed.

Lemma counting_last_step (n : nat) (lm : R) (st : Driver counting_engine) :
  counting_inv 99 st -> step_stop n lm 99 st = true.
Proof.
  intros Hinv. pose proof (counting_step_x n lm 99 st Hinv) as Hx.
  destruct Hinv as (_ & _ & Hlast).
  rewrite step_stop_converged, Hx, Hlast.
  change (Nat.min (99 + 1) 99) with 99%nat. change (Nat.eqb 99 0) with false.
  apply converged_iff. rewrite MaxDiff_singleton, Asum_singleton.
  assert (Hpos : 0 < INR 99) by (apply lt_0_INR; lia).
  rewrite Rminus_diag, Rabs_R0, Rabs_right by lra. lra.
Qed.

(** C6, as stated, fails: an engine whose iterates stop moving exactly at
    the last step makes the test fire there, yet all [nlambda] steps have
    been completed. *)
Lemma C6_counterexample :
  let tr := snd (LassoPath counting_engine 1 1 A_one [2]) in
  ~ ((steps tr <= nlambda)%nat /\
     ((steps tr < nlambda)%nat <-> exists i, fires tr i)).
Proof.
  cbv zeta. unfold LassoPath.
  set (lm := compute_lambda_max 1 (compute_u 1 1 A_one [2])).
  destruct (path_loop_continue 1 lm counting_inv 99 (counting_inv_step 1 lm)
              99 1 0 (initial 1 1 A_one [2]) counting_initial)
    as (st' & tr0 & Hinv & Hsteps & _ & Heq); [lia|].
  change nlambda with (99 + 1)%nat. rewrite Heq. cbn [snd].
  change (0 + 99)%nat with 99%nat in *.
  rewrite path_loop_S, (counting_last_step 1 lm st' Hinv). cbn [snd].
  rewrite steps_app, steps_step_events, Hsteps.
  intros [_ [_ Hfire]].
  assert (Hlt : (99 + 1 < 99 + 1)%nat); [|lia].
  apply Hfire. exists 99%nat. apply fires_app_r.
  eexists _, _. rewrite <- (counting_last_step 1 lm st' Hinv).
  apply step_events_test.
Qed.

(** ** C10: the empty solution vector *)

Lemma empty_inv_step {E : Pogs.Engine} (n : nat) (lm : R) (i : nat) (st : Driver E) :
  (i < nlambda)%nat -> empty_inv i st ->
  step_stop n lm i st = false /\
  empty_inv (S i) (save_x (step_state n lm i st)).
Proof.
  intros _ (Hx & Hlast).
  assert (Hx' : Pogs.x (pogs_data (step_state n lm i st)) = []).
  { unfold step_state, call_Solve, with_g. cbn. rewrite Hx. reflexivity. }
  split.
  - rewrite step_stop_converged, Hx', Hlast. apply converged_nil.
  - split; [exact Hx' | exact Hx'].
Qed.

(** C10: when the solution dimension is 0, [MaxDiff] and [Asum] return 0 on
    the empty vectors, the strict test does not fire on them, and whatever
    the engine does the driver never stops early: the test fires at no step
    and all [nlambda] path steps are performed. *)
Theorem C10_empty_solution (E : Pogs.Engine) (m : nat) (A : Sparse) (b : list R) :
  let tr := snd (LassoPath E m 0 A b) in
  MaxDiff [] [] = 0 /\ Asum [] = 0 /\ converged [] [] = false /\
  (forall i, ~ fires tr i) /\ steps tr = nlambda.
Proof.
  cbv zeta. split; [exact MaxDiff_nil|]. split; [exact Asum_nil|].
  split; [exact converged_nil|].
  unfold LassoPath.
  set (lm := compute_lambda_max 0 (compute_u m 0 A b)).
  destruct (path_loop_continue (E := E) 0 lm empty_inv nlambda
              (empty_inv_step 0 lm) nlambda 0 0 (initial m 0 A b))
    as (st' & tr0 & _ & Hsteps & Hnever & Heq); [split; reflexivity|lia|].
  rewrite Nat.add_0_r in Heq. rewrite Heq. cbn [snd path_loop].
  rewrite app_nil_r. split; assumption.
Qed.

(** ** C4 and C5: the early-stop test *)

Ltac eval_reductions :=
  unfold MaxDiff, Asum, for_range; simpl; rewrite ?std_max_Rmax; eval_reals.



Lemma MaxDiff_zeros : MaxDiff [0; 0; 0] [0; 0; 0] = 0.
Proof. eval_reductions. Qed.

Lemma Asum_zeros : Asum [0; 0; 0] = 0.
Proof. eval_reductions. Qed.


(** C5, as stated, fails: on the all-zero vectors the test is not true. *)
Lemma C5_counterexample : converged [0; 0; 0] [0; 0; 0] <> true.
Proof.
  intros H. apply converged_iff in H.
  rewrite MaxDiff_zeros, Asum_zeros in H. lra.
Qed.

(** C5 (amended): for x = [0,0,0] and x_prev = [0,0,0], where asum = 0 and
    maxDiff = 0, the convergence test evaluates to stop = false (continue),
    the comparison [0 < 0] being strict. *)
Theorem C5_all_zero_continues :
  MaxDiff [0; 0; 0] [0; 0; 0] = 0 /\ Asum [0; 0; 0] = 0 /\
  converged [0; 0; 0] [0; 0; 0] = false.
Proof.
  split; [exact MaxDiff_zeros|]. split; [exact Asum_zeros|].
  apply converged_false_iff. rewrite MaxDiff_zeros, Asum_zeros. lra.
Qed.

(** ** C9: the reductions do not depend on the order of the indices *)

Lemma length_permute (p : list nat) (v : list R) : length (permute p v) = length p.
Proof. apply length_map. Qed.

Lemma map_permute_indices (p : list nat) (d : nat -> R) (w : nat -> R) :
  (forall i, (i < length p)%nat -> w i = d (nth i p 0%nat)) ->
  map w (seq 0 (length p)) = map d p.
Proof.
  intros Hw. rewrite <- (map_nth_indices d p 0%nat).
  apply map_ext_in. intros i Hi. apply in_seq in Hi. apply Hw. lia.
Qed.

Lemma nth_permute_lt (p : list nat) (v : list R) (i : nat) :
  (i < length p)%nat -> nth i (permute p v) 0 = nth (nth i p 0%nat) v 0.
Proof.
  intros Hi. unfold permute.
  rewrite (nth_indep _ 0 (nth 0%nat v 0)) by (rewrite length_map; exact Hi).
  apply (map_nth (fun k => nth k v 0)).
Qed.

(** C9, as stated, fails: in binary64 arithmetic the sum of [1e16, 1, 1]
    taken in index order is [1e16], and the sum of the same entries in the
    order [1, 1, 1e16] is [1e16 + 2]. *)
Lemma C9_counterexample :
  Permutation [1; 2; 0]%nat (seq 0 3) /\
  Double.permute [1; 2; 0]%nat Double.big_first = Double.big_last /\
  Double.Asum (Double.permute [1; 2; 0]%nat Double.big_first)
  <> Double.Asum Double.big_first.
Proof.
  split; [|split; [reflexivity|]].
  - simpl. apply (Permutation_cons_app [0%nat] [2%nat] 1%nat). simpl.
    apply (Permutation_cons_app [0%nat] [] 2%nat). reflexivity.
  - intros H.
    assert (He : PrimFloat.eqb
                   (Double.Asum (Double.permute [1; 2; 0]%nat Double.big_first))
                   (Double.Asum Double.big_first) = true).
    { rewrite H. vm_compute. reflexivity. }
    vm_compute in He. discriminate.
Qed.

(** C9 (amended): for every permutation [p] of the indices applied
    identically to [x] and [x_prev], [MaxDiff] returns the same result as on
    the unpermuted vectors.  (Nothing is promised for [Asum], whose rounded
    additions depend on their order.) *)
Theorem C9_MaxDiff_permutation_invariant (p : list nat) (x x_prev : list R) :
  length x_prev = length x ->
  Permutation p (seq 0 (length x)) ->
  MaxDiff (permute p x) (permute p x_prev) = MaxDiff x x_prev.
Proof.
  intros _ Hperm.
  rewrite !MaxDiff_indices, length_permute.
  rewrite (map_permute_indices p (fun k => Rabs (nth k x 0 - nth k x_prev 0))).
  - apply (fold_left_perm Rmax Rmax_swap). apply Permutation_map. exact Hperm.
  - intros i Hi. rewrite !nth_permute_lt by exact Hi. reflexivity.
Qed.

Lemma C9_witness :
  MaxDiff (permute [2; 0; 1]%nat [1; 2; 3]) (permute [2; 0; 1]%nat [4; 5; 7])
  = MaxDiff [1; 2; 3] [4; 5; 7].
Proof.
  apply (C9_MaxDiff_permutation_invariant [2; 0; 1]%nat [1; 2; 3] [4; 5; 7]).
  - reflexivity.
  - simpl. apply (Permutation_cons_app [0; 1]%nat [] 2%nat). simpl. reflexivity.
Defined.

(** ** C1: the schedule *)

Lemma INR_99 : INR (nlambda - 1) = 99.
Proof.
  change (nlambda - 1)%nat with 99%nat.
  rewrite INR_IZR_INZ. reflexivity.
Qed.

(** Within the schedule the exponent is [log(lambda_max) * (1 - i/100)]. *)
Lemma lambda_arg_closed (lambda_max : R) (i : nat) :
  (i < nlambda)%nat ->
  lambda_arg lambda_max i = ln lambda_max * (1 - INR i / 100).
Proof.
  intros Hi. unfold lambda_arg. rewrite INR_99.
  replace (nlambda - 1 - i)%nat with (99 - i)%nat by reflexivity.
  rewrite minus_INR by (unfold nlambda in Hi; lia).
  replace (INR 99) with 99 by (rewrite INR_IZR_INZ; reflexivity).
  field.
Qed.

Lemma lambda_at_first (lambda_max : R) :
  0 < lambda_max -> lambda_at lambda_max 0 = lambda_max.
Proof.
  intros Hpos. unfold lambda_at.
  rewrite lambda_arg_closed by (unfold nlambda; lia).
  change (INR 0) with 0.
  replace (ln lambda_max * (1 - 0 / 100)) with (ln lambda_max) by field.
  apply exp_ln. exact Hpos.
Qed.

Lemma lambda_at_last (lambda_max : R) :
  lambda_at lambda_max (nlambda - 1) = Rpower lambda_max (1 / 100).
Proof.
  unfold lambda_at, Rpower.
  rewrite lambda_arg_closed by (unfold nlambda; lia).
  rewrite INR_99. f_equal. field.
Qed.

Lemma lambda_at_one (i : nat) : (i < nlambda)%nat -> lambda_at 1 i = 1.
Proof.
  intros Hi. unfold lambda_at. rewrite lambda_arg_closed by exact Hi.
  rewrite ln_1, Rmult_0_l. apply exp_0.
Qed.

(** Below 1 the logarithm is negative and the schedule climbs. *)
Lemma lambda_at_increasing_below_one (lambda_max : R) (i j : nat) :
  0 < lambda_max < 1 -> (i < j < nlambda)%nat ->
  lambda_at lambda_max i < lambda_at lambda_max j.
Proof.
  intros [Hpos Hlt] [Hij Hj]. unfold lambda_at.
  rewrite !lambda_arg_closed by lia. apply exp_increasing.
  assert (Hln : ln lambda_max < 0).
  { rewrite <- ln_1. apply ln_increasing; assumption. }
  assert (Hinr : INR i < INR j) by (apply lt_INR; exact Hij).
  nra.
Qed.

(** Above 1 the logarithm is positive and the schedule falls. *)
Lemma lambda_at_decreasing_above_one (lambda_max : R) (i j : nat) :
  1 < lambda_max -> (i < j < nlambda)%nat ->
  lambda_at lambda_max j < lambda_at lambda_max i.
Proof.
  intros Hgt [Hij Hj]. unfold lambda_at.
  rewrite !lambda_arg_closed by lia. apply exp_increasing.
  assert (Hln : 0 < ln lambda_max).
  { rewrite <- ln_1. apply ln_increasing; lra. }
  assert (Hinr : INR i < INR j) by (apply lt_INR; exact Hij).
  nra.
Qed.

Lemma lambda_max_half_example :
  compute_lambda_max 1 (compute_u 1 1 A_one [1 / 2]) = 1 / 2.
Proof.
  unfold compute_lambda_max, compute_u, for_range. simpl.
  rewrite std_max_Rmax. replace (0 + 1 * (1 / 2)) with (1 / 2) by lra.
  unfold Rmax, Rabs.
  destruct (Rcase_abs (1 / 2)); destruct (Rle_dec 0 _); lra.
Qed.

(** C1 (the code at a failing input): for A = [[1]] and b = [1/2] the
    maximal penalty is 1/2 > 0, and the schedule of lines 85-86 starts at
    [lambda_0 = 1/2] but is strictly increasing in [i] and ends above 1/2,
    at [(1/2) ^ (1/100)], not at [1e-2 * 1/2]: the factor [1e-2] multiplies
    the logarithm instead of [lambda_max]. *)
Theorem C1_schedule_at_one_half :
  compute_lambda_max 1 (compute_u 1 1 A_one [1 / 2]) = 1 / 2 /\
  lambda_at (1 / 2) 0 = 1 / 2 /\
  (forall i j, (i < j < nlambda)%nat ->
     lambda_at (1 / 2) i < lambda_at (1 / 2) j) /\
  lambda_at (1 / 2) (nlambda - 1) = Rpower (1 / 2) (1 / 100) /\
  1 / 2 < lambda_at (1 / 2) (nlambda - 1) /\
  lambda_at (1 / 2) (nlambda - 1) <> 1 / 100 * (1 / 2).
Proof.
  assert (Hhalf : 0 < 1 / 2 < 1) by lra.
  assert (Hfirst : lambda_at (1 / 2) 0 = 1 / 2) by (apply lambda_at_first; lra).
  assert (Hlast : 1 / 2 < lambda_at (1 / 2) (nlambda - 1)).
  { rewrite <- Hfirst at 1. apply lambda_at_increasing_below_one; [exact Hhalf|].
    unfold nlambda. lia. }
  split; [exact lambda_max_half_example|]. split; [exact Hfirst|].
  split; [intros i j Hij; apply lambda_at_increasing_below_one; assumption|].
  split; [apply lambda_at_last|]. split; [exact Hlast | lra].
Qed.

(** ** C3: the maximal penalty *)

(** The accumulation [u[j] += v * b[i]] for one nonzero. *)
Lemma nth_alter_add (u : list R) (j k : nat) (d : R) :
  (k < length u)%nat ->
  nth k (alter (fun w => w + d) j u) 0
  = nth k u 0 + (if Nat.eqb j k then d else 0).
Proof.
  intros Hk. rewrite !nth_lookup.
  destruct (Nat.eqb j k) eqn:Hjk.
  - apply Nat.eqb_eq in Hjk. subst k. rewrite list_lookup_alter_eq.
    destruct (lookup_lt_is_Some_2 u j Hk) as [w Hw]. rewrite Hw. reflexivity.
  - apply Nat.eqb_neq in Hjk. rewrite list_lookup_alter_ne by exact Hjk. lra.
Qed.

Lemma for_range_flat {S T : Type} (lo hi : nat) (g : nat -> list T)
  (step : S -> T -> S) (s : S) :
  for_range lo hi (fun i s => fold_left step (g i) s) s
  = fold_left step (flat_map g (seq lo (hi - lo))) s.
Proof.
  unfold for_range. generalize (seq lo (hi - lo)) s. intros l.
  induction l as [|i l IH]; intros s0; simpl; [reflexivity|].
  rewrite fold_left_app. apply IH.
Qed.

Lemma for_range_as_map {S T : Type} (lo hi : nat) (g : nat -> T)
  (step : S -> T -> S) (s : S) :
  for_range lo hi (fun j s => step s (g j)) s
  = fold_left step (map g (seq lo (hi - lo))) s.
Proof.
  unfold for_range. generalize (seq lo (hi - lo)) s. intros l.
  induction l as [|i l IH]; intros s0; simpl; [reflexivity|]. apply IH.
Qed.

(** The double loop of lines 58-62 visits the nonzeros in order. *)
Lemma compute_u_nonzeros (m n : nat) (A : Sparse) (b : list R) :
  compute_u m n A b
  = fold_left
      (fun u (e : nat * nat * R) =>
         alter (fun w => w + snd e * nth (fst (fst e)) b 0) (snd (fst e)) u)
      (nonzeros m A) (repeat 0 n).
Proof.
  unfold compute_u, nonzeros.
  rewrite <- (Nat.sub_0_r m) at 2.
  rewrite <- for_range_flat. apply for_range_ext. intros i u.
  apply (for_range_as_map _ _
           (fun j => (i, nth j (col_ind A) 0%nat, nth j (val A) 0))
           (fun u (e : nat * nat * R) =>
              alter (fun w => w + snd e * nth (fst (fst e)) b 0) (snd (fst e)) u)).
Qed.

Lemma accumulate_entries (b : list R) (l : list (nat * nat * R)) (u : list R) :
  fold_left
    (fun u (e : nat * nat * R) =>
       alter (fun w => w + snd e * nth (fst (fst e)) b 0) (snd (fst e)) u) l u
  = map (fun k =>
           nth k u 0
           + fold_right Rplus 0
               (map (fun e : nat * nat * R =>
                       let '(i, j, v) := e in
                       if Nat.eqb j k then v * nth i b 0 else 0) l))
        (seq 0 (length u)).
Proof.
  revert u. induction l as [|[[i j] v] l IH]; intros u.
  - cbn [fold_left map fold_right].
    transitivity (map (fun k => (fun w : R => w) (nth k u 0)) (seq 0 (length u))).
    + rewrite (map_nth_indices (fun w : R => w) u 0). symmetry. apply map_id.
    + apply map_ext. intros k. lra.
  - cbn [fold_left fst snd]. rewrite IH, length_alter.
    apply map_ext_in. intros k Hk. apply in_seq in Hk.
    rewrite nth_alter_add by lia. cbn [map fold_right]. lra.
Qed.

Lemma length_compute_u (m n : nat) (A : Sparse) (b : list R) :
  length (compute_u m n A b) = n.
Proof.
  rewrite compute_u_nonzeros, accumulate_entries.
  rewrite length_map, length_seq. apply repeat_length.
Qed.

Lemma compute_u_spec (m n : nat) (A : Sparse) (b : list R) :
  compute_u m n A b = map (At_b_entry m A b) (seq 0 n).
Proof.
  rewrite compute_u_nonzeros, accumulate_entries, repeat_length.
  apply map_ext_in. intros k Hk. apply in_seq in Hk.
  rewrite nth_repeat. unfold At_b_entry. lra.
Qed.

Lemma compute_lambda_max_spec (u : list R) :
  compute_lambda_max (length u) u = fold_right Rmax 0 (map Rabs u).
Proof.
  unfold compute_lambda_max.
  rewrite (for_range_ext 0 (length u) _
             (fun i lm => Rmax lm (Rabs (nth i u 0))))
    by (intros; apply std_max_Rmax).
  rewrite (for_range_map (length u) (fun i => Rabs (nth i u 0)) Rmax 0).
  rewrite fold_left_Rmax_0, (map_nth_indices Rabs u 0). reflexivity.
Qed.

Lemma compute_u_example : compute_u 2 2 A_diag23 [1; 1] = [2; 3].
Proof.
  unfold compute_u, for_range. simpl. f_equal; [lra|]. f_equal. lra.
Qed.

Lemma compute_lambda_max_example : compute_lambda_max 2 [2; 3] = 3.
Proof.
  unfold compute_lambda_max, for_range. simpl. rewrite !std_max_Rmax. eval_reals.
Qed.

(** C3: for every compressed-row matrix and every [b], the accumulation
    over the nonzeros leaves in [u] the vector [A^T b] (entry [j] is the sum
    of [v * b[i]] over the nonzeros (i, j, v)), and [lambda_max] is the
    maximum of the [|u[j]|]; for A = [[2,0],[0,3]] and b = [1,1] this gives
    u = [2,3] and lambda_max = 3. *)
Theorem C3_lambda_max (m n : nat) (A : Sparse) (b : list R) :
  compute_u m n A b = map (At_b_entry m A b) (seq 0 n) /\
  compute_lambda_max n (compute_u m n A b)
  = fold_right Rmax 0 (map Rabs (compute_u m n A b)) /\
  compute_u 2 2 A_diag23 [1; 1] = [2; 3] /\
  compute_lambda_max 2 (compute_u 2 2 A_diag23 [1; 1]) = 3.
Proof.
  split; [apply compute_u_spec|]. split; [|split].
  - rewrite <- (length_compute_u m n A b) at 1. apply compute_lambda_max_spec.
  - exact compute_u_example.
  - rewrite compute_u_example. exact compute_lambda_max_example.
Qed.

(** ** C8: what the driver writes between path steps *)

Lemma nth_alter {T : Type} (fn : T -> T) (l : list T) (j k : nat) (d : T) :
  (k < length l)%nat ->
  nth k (alter fn j l) d = if Nat.eqb j k then fn (nth k l d) else nth k l d.
Proof.
  intros Hk. rewrite !nth_lookup.
  destruct (Nat.eqb j k) eqn:Hjk.
  - apply Nat.eqb_eq in Hjk. subst k. rewrite list_lookup_alter_eq.
    destruct (lookup_lt_is_Some_2 l j Hk) as [w Hw]. rewrite Hw. reflexivity.
  - apply Nat.eqb_neq in Hjk. rewrite list_lookup_alter_ne by exact Hjk.
    reflexivity.
Qed.

Lemma length_alter_loop {T : Type} (fn : T -> T) (k : nat) (l : list T) :
  length (for_range 0 k (fun i l => alter fn i l) l) = length l.
Proof.
  induction k as [|k IH]; [reflexivity|].
  rewrite (for_range_snoc 0 k). rewrite length_alter. exact IH.
Qed.

Lemma nth_alter_loop {T : Type} (fn : T -> T) (k : nat) (l : list T) (j : nat) (d : T) :
  (j < length l)%nat ->
  nth j (for_range 0 k (fun i l => alter fn i l) l) d
  = if Nat.ltb j k then fn (nth j l d) else nth j l d.
Proof.
  intros Hj. induction k as [|k IH]; [reflexivity|].
  rewrite (for_range_snoc 0 k). cbn [Nat.add].
  rewrite nth_alter by (rewrite length_alter_loop; exact Hj).
  rewrite IH. destruct (Nat.eqb k j) eqn:Hkj.
  - apply Nat.eqb_eq in Hkj. subst k.
    rewrite Nat.ltb_irrefl. replace (j <? S j)%nat with true; [reflexivity|].
    symmetry. apply Nat.ltb_lt. lia.
  - apply Nat.eqb_neq in Hkj.
    destruct (Nat.ltb j k) eqn:Hlt.
    + apply Nat.ltb_lt in Hlt. replace (j <? S k)%nat with true; [reflexivity|].
      symmetry. apply Nat.ltb_lt. lia.
    + apply Nat.ltb_ge in Hlt. replace (j <? S k)%nat with false; [reflexivity|].
      symmetry. apply Nat.ltb_ge. lia.
Qed.

(** The loop of lines 89-90 assigns the scale of every column descriptor. *)
Lemma set_scales_map (n : nat) (lambda : R) (g : list Pogs.FunctionObj) :
  length g = n -> set_scales n lambda g = map (Pogs.set_c lambda) g.
Proof.
  intros Hlen. unfold set_scales.
  apply (nth_ext _ _ (Pogs.FunctionObj1 Pogs.kAbs)
           (Pogs.set_c lambda (Pogs.FunctionObj1 Pogs.kAbs))).
  - rewrite length_alter_loop, length_map. reflexivity.
  - intros j Hj. rewrite length_alter_loop in Hj.
    rewrite nth_alter_loop by exact Hj.
    replace (j <? n)%nat with true by (symmetry; apply Nat.ltb_lt; lia).
    symmetry. apply (map_nth (Pogs.set_c lambda)).
Qed.

(** A loop of [emplace_back] builds the list of the values appended. *)
Lemma emplace_loop {T : Type} (h : nat -> T) (k : nat) :
  for_range 0 k (fun i l => l ++ [h i]) [] = map h (seq 0 k).
Proof.
  induction k as [|k IH]; [reflexivity|].
  rewrite (for_range_snoc 0 k). cbn [Nat.add]. rewrite IH.
  rewrite seq_S, map_app. reflexivity.
Qed.

Lemma initial_f {E : Pogs.Engine} (m n : nat) (A : Sparse) (b : list R) :
  Pogs.f (pogs_data (initial (E := E) m n A b))
  = map (fun i => Pogs.mkFunctionObj Pogs.kSquare 1 (nth i b 0) 1) (seq 0 m).
Proof. apply (emplace_loop (fun i => Pogs.FunctionObj3 Pogs.kSquare 1 (nth i b 0))). Qed.

Lemma initial_g {E : Pogs.Engine} (m n : nat) (A : Sparse) (b : list R) :
  Pogs.g (pogs_data (initial (E := E) m n A b))
  = repeat (Pogs.FunctionObj1 Pogs.kAbs) n.
Proof.
  unfold initial. cbn [pogs_data Pogs.g].
  rewrite (emplace_loop (fun _ => Pogs.FunctionObj1 Pogs.kAbs)).
  induction n as [|k IH]; [reflexivity|].
  rewrite seq_S, map_app, IH. cbn [map Nat.add].
  rewrite <- repeat_cons. reflexivity.
Qed.

Lemma set_c_map_twice (lambda c0 : R) (g0 : list Pogs.FunctionObj) :
  map (Pogs.set_c lambda) (map (Pogs.set_c c0) g0) = map (Pogs.set_c lambda) g0.
Proof. rewrite map_map. reflexivity. Qed.

Section Frame.
Context {E : Pogs.Engine}.
Variables (n : nat) (lambda_max : R) (g0 : list Pogs.FunctionObj).
Hypothesis length_g0 : length g0 = n.

(** The data handed to the solver at step [i] and the state it leaves. *)
Lemma solve_in_step_events (i : nat) (st : Driver E) (j : nat) (lambda : R)
  (pd : Pogs.PogsData) (xo : list R) :
  In (EvSolve j lambda pd xo) (step_events n lambda_max i st) ->
  j = i /\ lambda = lambda_at lambda_max i /\
  pd = pogs_data (with_g st (set_scales n lambda (Pogs.g (pogs_data st)))) /\
  xo = Pogs.x (pogs_data (step_state n lambda_max i st)).
Proof.
  unfold step_events. intros Hin.
  repeat (destruct Hin as [Hin|Hin]; try discriminate); [|contradiction].
  injection Hin as <- <- <- <-. split; [reflexivity|].
  split; [reflexivity|]. split; reflexivity.
Qed.

Lemma frame_of_step (i : nat) (st : Driver E) :
  (exists c0, Pogs.g (pogs_data st) = map (Pogs.set_c c0) g0) ->
  Pogs.g (pogs_data (step_state n lambda_max i st))
  = map (Pogs.set_c (lambda_at lambda_max i)) g0.
Proof.
  intros [c0 Hg]. unfold step_state, call_Solve, with_g. cbn.
  rewrite set_scales_map by (rewrite Hg, length_map; exact length_g0).
  rewrite Hg. apply set_c_map_twice.
Qed.

Lemma frame_of_run (todo i : nat) (st : Driver E) :
  (exists c0, Pogs.g (pogs_data st) = map (Pogs.set_c c0) g0) ->
  (forall j lambda pd xo,
     In (EvSolve j lambda pd xo) (snd (path_loop n lambda_max todo i st)) ->
     lambda = lambda_at lambda_max j /\
     Pogs.A pd = Pogs.A (pogs_data st) /\
     Pogs.m pd = Pogs.m (pogs_data st) /\
     Pogs.n pd = Pogs.n (pogs_data st) /\
     Pogs.f pd = Pogs.f (pogs_data st) /\
     Pogs.g pd = map (Pogs.set_c lambda) g0) /\
  frame_of g0 st (fst (path_loop n lambda_max todo i st)).
Proof.
  revert i st. induction todo as [|todo IH]; intros i st Hg.
  - split; [intros j lambda pd xo []|]. unfold frame_of. cbn [path_loop fst].
    repeat (split; [reflexivity|]). exact Hg.
  - pose proof (frame_of_step i st Hg) as Hg'.
    assert (Hhere : forall j lambda pd xo,
               In (EvSolve j lambda pd xo) (step_events n lambda_max i st) ->
               lambda = lambda_at lambda_max j /\
               Pogs.A pd = Pogs.A (pogs_data st) /\
               Pogs.m pd = Pogs.m (pogs_data st) /\
               Pogs.n pd = Pogs.n (pogs_data st) /\
               Pogs.f pd = Pogs.f (pogs_data st) /\
               Pogs.g pd = map (Pogs.set_c lambda) g0).
    { intros j lambda pd xo Hin. apply solve_in_step_events in Hin.
      destruct Hin as (-> & -> & -> & _).
      repeat (split; [reflexivity|]). exact Hg'. }
    rewrite path_loop_S. destruct (step_stop n lambda_max i st); cbn [fst snd].
    + split; [exact Hhere|]. unfold frame_of.
      repeat (split; [reflexivity|]). eexists. exact Hg'.
    + destruct (IH (S i) (save_x (step_state n lambda_max i st))) as [Hev Hfr].
      { eexists. exact Hg'. }
      split.
      * intros j lambda pd xo Hin. apply in_app_or in Hin.
        destruct Hin as [Hin|Hin]; [exact (Hhere j lambda pd xo Hin)|].
        exact (Hev j lambda pd xo Hin).
      * exact Hfr.
Qed.
End Frame.

(** C8: across the whole path, the data handed to the solver at step [i]
    differs from the data built before the loop only in the scale [c] of the
    [n] column descriptors, which is [lambda_i]; the [m] row descriptors
    (kind Square, scale 1, offset [b[row]]), the matrix and [b] (here [obs]) are the same
    at every solver invocation and when the driver returns. *)
Theorem C8_only_penalty_scale_changes (E : Pogs.Engine) (m n : nat) (A : Sparse)
  (obs : list R) :
  let lambda_max := compute_lambda_max n (compute_u m n A obs) in
  let f0 := map (fun i => Pogs.mkFunctionObj Pogs.kSquare 1 (nth i obs 0) 1) (seq 0 m) in
  let g0 := repeat (Pogs.FunctionObj1 Pogs.kAbs) n in
  let run := LassoPath E m n A obs in
  (forall i lambda pd xo,
     In (EvSolve i lambda pd xo) (snd run) ->
     lambda = lambda_at lambda_max i /\
     Pogs.A pd = A /\ Pogs.m pd = m /\ Pogs.n pd = n /\
     Pogs.f pd = f0 /\
     Pogs.g pd = map (Pogs.set_c lambda) g0 /\
     Pogs.g pd = repeat (Pogs.mkFunctionObj Pogs.kAbs 1 0 lambda) n) /\
  b (fst run) = obs /\
  Pogs.A (pogs_data (fst run)) = A /\
  Pogs.f (pogs_data (fst run)) = f0 /\
  length f0 = m /\
  exists c0, Pogs.g (pogs_data (fst run)) = map (Pogs.set_c c0) g0.
Proof.
  cbv zeta. unfold LassoPath.
  set (lm := compute_lambda_max n (compute_u m n A obs)).
  set (g0 := repeat (Pogs.FunctionObj1 Pogs.kAbs) n).
  assert (Hlen : length g0 = n) by apply repeat_length.
  assert (Hg : exists c0, Pogs.g (pogs_data (initial (E := E) m n A obs))
                          = map (Pogs.set_c c0) g0).
  { exists 1. rewrite initial_g. unfold g0. rewrite map_repeat. reflexivity. }
  destruct (frame_of_run n lm g0 Hlen nlambda 0 (initial m n A obs) Hg)
    as [Hev (Hb & HA & _ & _ & Hf & Hgfin)].
  rewrite initial_f in Hf.
  split; [|split; [exact Hb|split; [exact HA|split; [exact Hf|split]]]].
  - intros i lambda pd xo Hin.
    destruct (Hev i lambda pd xo Hin) as (Hl & HA' & Hm & Hn & Hf' & Hg').
    rewrite initial_f in Hf'.
    repeat (split; [assumption|]).
    rewrite Hg'. unfold g0. apply map_repeat.
  - rewrite length_map. apply length_seq.
  - exact Hgfin.
Qed.

(** ** C2: a vanishing maximal penalty *)

Lemma lambda_max_zero_example :
  compute_lambda_max 1 (compute_u 1 1 A_one [0]) = 0.
Proof.
  unfold compute_lambda_max, compute_u, for_range. simpl.
  rewrite std_max_Rmax. replace (0 + 1 * 0) with 0 by lra. eval_reals.
Qed.

(** C2, as stated, fails: on the 1x1 matrix [[1]] with b = [0] the maximal
    penalty is 0, and the driver still evaluates a logarithm and invokes the
    solver. *)
Lemma C2_counterexample :
  compute_lambda_max 1 (compute_u 1 1 A_one [0]) = 0 /\
  ~ (forall e, In e (snd (LassoPath idle_engine 1 1 A_one [0])) ->
               is_log e = false /\ is_solve e = false).
Proof.
  split; [exact lambda_max_zero_example|]. intros Hnone.
  unfold LassoPath in Hnone. rewrite lambda_max_zero_example in Hnone.
  destruct (run_starts_with_log (E := idle_engine) 1 0 99 0 (initial 1 1 A_one [0]))
    as [tr Htr].
  change nlambda with (S 99) in Hnone. rewrite Htr in Hnone.
  destruct (Hnone (EvLog 0)) as [Hlog _]; [left; reflexivity|]. discriminate.
Qed.

(** C2 (amended): when [lambda_max = 0] the driver takes no special path:
    it enters the loop, evaluates [log(lambda_max)] as its first action and
    invokes the solver at least once. *)
Theorem C2_zero_lambda_max_not_guarded (E : Pogs.Engine) (m n : nat) (A : Sparse)
  (b : list R) :
  compute_lambda_max n (compute_u m n A b) = 0 ->
  (exists tr', snd (LassoPath E m n A b) = EvLog 0 :: tr') /\
  (1 <= steps (snd (LassoPath E m n A b)))%nat.
Proof.
  intros Hzero. unfold LassoPath. rewrite Hzero. change nlambda with (S 99).
  split; [apply run_starts_with_log | apply run_solves_once].
Qed.

Lemma C2_witness :
  (exists tr', snd (LassoPath idle_engine 1 1 A_one [0]) = EvLog 0 :: tr') /\
  (1 <= steps (snd (LassoPath idle_engine 1 1 A_one [0%R])))%nat.
Proof.
  apply (C2_zero_lambda_max_not_guarded idle_engine 1 1 A_one [0]).
  exact lambda_max_zero_example.
Defined.

(** ** C7: the previous-iterate buffer *)

Section PreviousIterate.
Context {E : Pogs.Engine}.
Variables (n : nat) (lambda_max : R).

Lemma x_at_step_events_app (i : nat) (st : Driver E) (tr : list event) (j : nat) :
  x_at (step_events n lambda_max i st ++ tr) j
  = if Nat.eqb i j
    then Some (Pogs.x (pogs_data (step_state n lambda_max i st)))
    else x_at tr j.
Proof. reflexivity. Qed.

Lemma length_step_x (i : nat) (st : Driver E) :
  length (Pogs.x (pogs_data (step_state n lambda_max i st)))
  = length (Pogs.x (pogs_data st)).
Proof.
  unfold step_state, call_Solve, with_g. cbn.
  rewrite length_map. apply length_seq.
Qed.

(** The operands of every test: the iterate of its own step and, from
    step [i + 1] on, the iterate of the step before; at the first step the
    buffer the loop was entered with. *)
Lemma test_operands (todo i : nat) (st : Driver E) (j : nat) (xc xl : list R)
  (r : bool) :
  In (EvTest j xc xl r) (snd (path_loop n lambda_max todo i st)) ->
  x_at (snd (path_loop n lambda_max todo i st)) j = Some xc /\
  (j = i -> xl = x_last st /\
            length xc = length (Pogs.x (pogs_data st))) /\
  ((i < j)%nat ->
   x_at (snd (path_loop n lambda_max todo i st)) (j - 1) = Some xl).
Proof.
  revert i st. induction todo as [|todo IH]; intros i st; [intros []|].
  intros Hin.
  pose proof (tests_of_run n lambda_max (S todo) i st j xc xl r Hin)
    as (Hrange & _).
  revert Hin. rewrite path_loop_S.
  destruct (step_stop n lambda_max i st) eqn:Hstop; cbn [snd].
  - intros Hin. apply test_in_step_events in Hin.
    destruct Hin as (-> & -> & -> & ->).
    rewrite <- (app_nil_r (step_events n lambda_max i st)).
    rewrite x_at_step_events_app, Nat.eqb_refl.
    split; [reflexivity|]. split; [|lia].
    intros _. split; [reflexivity | apply length_step_x].
  - intros Hin. apply in_app_or in Hin. destruct Hin as [Hin|Hin].
    + apply test_in_step_events in Hin.
      destruct Hin as (-> & -> & -> & ->).
      rewrite x_at_step_events_app, Nat.eqb_refl.
      split; [reflexivity|]. split; [|lia].
      intros _. split; [reflexivity | apply length_step_x].
    + pose proof (tests_of_run n lambda_max todo (S i) _ j xc xl r Hin)
        as (Hrange' & _).
      destruct (IH (S i) _ Hin) as (Hat & Hfirst & Hprev).
      rewrite !x_at_step_events_app.
      replace (Nat.eqb i j) with false by (symmetry; apply Nat.eqb_neq; lia).
      split; [exact Hat|]. split; [lia|]. intros _.
      destruct (Nat.eq_dec j (S i)) as [->|Hne].
      * replace (S i - 1)%nat with i by lia. rewrite Nat.eqb_refl.
        destruct (Hfirst eq_refl) as [-> _]. reflexivity.
      * replace (Nat.eqb i (j - 1)) with false
          by (symmetry; apply Nat.eqb_neq; lia).
        apply Hprev. lia.
Qed.

(** The buffer when the loop is left: untouched since the test that fired,
    or the last iterate when no test fired. *)
Lemma final_x_last (todo i : nat) (st : Driver E) :
  (forall j xc xl,
     In (EvTest j xc xl true) (snd (path_loop n lambda_max (S todo) i st)) ->
     x_last (fst (path_loop n lambda_max (S todo) i st)) = xl) /\
  ((forall j, ~ fires (snd (path_loop n lambda_max (S todo) i st)) j) ->
   x_last (fst (path_loop n lambda_max (S todo) i st))
   = Pogs.x (pogs_data (fst (path_loop n lambda_max (S todo) i st)))).
Proof.
  revert i st. induction todo as [|todo IH]; intros i st.
  - rewrite path_loop_S.
    destruct (step_stop n lambda_max i st) eqn:Hstop; cbn [fst snd path_loop].
    + split.
      * intros j xc xl Hin. apply test_in_step_events in Hin.
        destruct Hin as (_ & _ & -> & _). reflexivity.
      * intros Hnever. destruct (Hnever i). eexists _, _.
        rewrite <- Hstop. apply step_events_test.
    + split; [|reflexivity].
      intros j xc xl Hin. rewrite app_nil_r in Hin.
      apply test_in_step_events in Hin. destruct Hin as (_ & _ & _ & Hr).
      congruence.
  - rewrite path_loop_S.
    destruct (step_stop n lambda_max i st) eqn:Hstop; cbn [fst snd].
    + split.
      * intros j xc xl Hin. apply test_in_step_events in Hin.
        destruct Hin as (_ & _ & -> & _). reflexivity.
      * intros Hnever. destruct (Hnever i). eexists _, _.
        rewrite <- Hstop. apply step_events_test.
    + destruct (IH (S i) (save_x (step_state n lambda_max i st))) as [Hfired Hnone].
      split.
      * intros j xc xl Hin. apply in_app_or in Hin. destruct Hin as [Hin|Hin].
        -- apply test_in_step_events in Hin. destruct Hin as (_ & _ & _ & Hr).
           congruence.
        -- exact (Hfired j xc xl Hin).
      * intros Hnever. apply Hnone. intros j Hf.
        apply (Hnever j). apply fires_app_r. exact Hf.
Qed.

Lemma first_test_in_run (todo i : nat) (st : Driver E) :
  In (EvTest i (Pogs.x (pogs_data (step_state n lambda_max i st))) (x_last st)
        (step_stop n lambda_max i st))
     (snd (path_loop n lambda_max (S todo) i st)).
Proof.
  rewrite path_loop_S. destruct (step_stop n lambda_max i st) eqn:Hstop;
    cbn [snd]; rewrite <- ?Hstop.
  - apply step_events_test.
  - apply in_or_app. left. apply step_events_test.
Qed.
End PreviousIterate.

(** *** The sentinel at the first step *)

Lemma max_abs_diff_repeat_ge (l : list R) (t v : R) :
  In v l -> Rabs (v - t) <= max_abs_diff l (repeat t (length l)).
Proof.
  unfold max_abs_diff. induction l as [|a l IH]; intros Hin; [destruct Hin|].
  cbn [length repeat combine map fold_right fst snd].
  destruct Hin as [->|Hin].
  - apply Rmax_l.
  - eapply Rle_trans; [apply IH; exact Hin | apply Rmax_r].
Qed.

Lemma abs_sum_le (l : list R) (B : R) :
  (forall v, In v l -> Rabs v <= B) -> abs_sum l <= INR (length l) * B.
Proof.
  unfold abs_sum. induction l as [|a l IH]; intros Hb.
  - simpl. lra.
  - cbn [map fold_right length]. rewrite S_INR.
    assert (Ha : Rabs a <= B) by (apply Hb; left; reflexivity).
    assert (Hl : fold_right Rplus 0 (map Rabs l) <= INR (length l) * B).
    { apply IH. intros v Hv. apply Hb. right. exact Hv. }
    lra.
Qed.

Lemma Rabs_minus_ge (v t : R) : t - Rabs v <= Rabs (v - t).
Proof. unfold Rabs. destruct (Rcase_abs v), (Rcase_abs (v - t)); lra. Qed.

(** Against a buffer filled with [M > 0] the test does not fire when the
    entries of the iterate are small enough for their sum to stay below
    [M / 2]. *)
Lemma sentinel_continue_for (M : R) (x0 : list R) :
  0 < M ->
  (forall v, In v x0 -> 2 * INR (length x0) * Rabs v <= M) ->
  converged x0 (repeat M (length x0)) = false.
Proof.
  intros HM Hsmall. apply converged_false_iff.
  rewrite MaxDiff_spec by (symmetry; apply repeat_length). rewrite Asum_spec.
  destruct x0 as [|a l]; [unfold abs_sum, max_abs_diff; simpl; lra|].
  set (x0 := a :: l) in *.
  set (K := INR (length x0)) in *.
  assert (HK : 1 <= K).
  { unfold K, x0. cbn [length]. rewrite S_INR. pose proof (pos_INR (length l)). lra. }
  assert (Hsum : abs_sum x0 <= K * (M / (2 * K))).
  { apply abs_sum_le. intros v Hv. pose proof (Hsmall v Hv) as Hs.
    apply (Rmult_le_reg_r (2 * K)); [lra|].
    replace (M / (2 * K) * (2 * K)) with M by (field; lra). lra. }
  replace (K * (M / (2 * K))) with (M / 2) in Hsum by (field; lra).
  assert (Ha : 2 * K * Rabs a <= M) by (apply Hsmall; left; reflexivity).
  pose proof (Rabs_pos a) as Hapos.
  assert (Hhalf : Rabs a <= M / 2) by nra.
  pose proof (max_abs_diff_repeat_ge x0 M a (or_introl eq_refl)) as Hm.
  pose proof (Rabs_minus_ge a M) as Hd.
  lra.
Qed.

Lemma numeric_limits_max_pos (T : scalar_type) : 0 < numeric_limits_max T.
Proof.
  destruct T; [|exact T_max_pos].
  unfold numeric_limits_max. apply IZR_lt. reflexivity.
Qed.

Lemma LassoPath_for_double (E : Pogs.Engine) (m n : nat) (A : Sparse) (b : list R) :
  LassoPath_for T_double E m n A b = LassoPath E m n A b.
Proof. reflexivity. Qed.

Lemma const_engine_first_step (lm : R) (st : Driver (const_engine T_max)) :
  length (Pogs.x (pogs_data st)) = 1%nat -> x_last st = [T_max] ->
  Pogs.x (pogs_data (step_state 1 lm 0 st)) = [T_max] /\
  step_stop 1 lm 0 st = true.
Proof.
  intros Hlen Hlast.
  assert (Hx : Pogs.x (pogs_data (step_state 1 lm 0 st)) = [T_max]).
  { unfold step_state, call_Solve, with_g. cbn. rewrite Hlen. reflexivity. }
  split; [exact Hx|].
  rewrite step_stop_converged, Hx, Hlast. apply converged_iff.
  rewrite MaxDiff_singleton, Asum_singleton, Rminus_diag, Rabs_R0.
  pose proof T_max_pos. rewrite Rabs_right by lra. lra.
Qed.

(** C7, as stated, fails: if the first solve leaves the largest
    representable value in [x], the comparison at step 0 says "stop". *)
Lemma C7_counterexample :
  ~ (forall xc xl r,
       In (EvTest 0 xc xl r) (snd (LassoPath (const_engine T_max) 1 1 A_one [2])) ->
       r = false).
Proof.
  intros Hcont. unfold LassoPath in Hcont.
  set (lm := compute_lambda_max 1 (compute_u 1 1 A_one [2])) in Hcont.
  set (st := initial (E := const_engine T_max) 1 1 A_one [2]) in Hcont.
  destruct (const_engine_first_step lm st eq_refl eq_refl) as [_ Hstop].
  pose proof (first_test_in_run 1 lm 99 0 st) as Hin.
  apply Hcont in Hin. congruence.
Qed.

(** In binary64 arithmetic as well the test fires at step 0 on the iterate
    [max]; and on [max/2, max/2, max/2] the sum overflows and it fires too. *)
Lemma sentinel_stops_in_double :
  Double.converged [Double.max] [Double.max] = true /\
  Double.converged Double.half_max3 (repeat Double.max 3) = true.
Proof. split; vm_compute; reflexivity. Qed.

(** At the edge of the bound [2 * n * |v| <= max] the test says "continue"
    in binary64 arithmetic too. *)
Lemma sentinel_continues_in_double :
  Double.converged Double.sixth_max3 (repeat Double.max 3) = false /\
  Double.converged Double.half_max1 [Double.max] = false /\
  Double.converged Double.neg_half_max1 [Double.max] = false.
Proof. repeat split; vm_compute; reflexivity. Qed.

(** C7 (amended): in every run of [LassoPath<T>], for [T] float or double,
    the test of step [j] has as first operand the iterate [x_j] the solver
    has just produced; for [j >= 1] its second operand is the iterate
    [x_(j-1)] of the previous step, and at step 0 it is the buffer filled
    with the largest value of [T], against which the test says "continue"
    whenever every entry [v] of [x_0] satisfies [2 * n * |v| <= max] (so that
    the sum of the magnitudes stays below [max / 2]).  The buffer is written
    only after a test that says "continue": when a test fires, the buffer
    still holds that test's second operand on return, and when none fires it
    ends up equal to the last iterate. *)
Theorem C7_previous_iterate (T : scalar_type) (E : Pogs.Engine) (m n : nat)
  (A : Sparse) (b : list R) :
  let run := LassoPath_for T E m n A b in
  (forall j xc xl r,
     In (EvTest j xc xl r) (snd run) ->
     x_at (snd run) j = Some xc /\
     r = converged xc xl /\
     (j = 0%nat ->
      xl = repeat (numeric_limits_max T) n /\
      ((forall v, In v xc -> 2 * INR n * Rabs v <= numeric_limits_max T) ->
       r = false)) /\
     ((1 <= j)%nat -> x_at (snd run) (j - 1) = Some xl)) /\
  (forall j xc xl,
     In (EvTest j xc xl true) (snd run) -> x_last (fst run) = xl) /\
  ((forall j, ~ fires (snd run) j) ->
   x_last (fst run) = Pogs.x (pogs_data (fst run))).
Proof.
  cbv zeta. unfold LassoPath_for.
  set (lm := compute_lambda_max n (compute_u m n A b)).
  set (st := initial_for (E := E) T m n A b).
  split; [|change nlambda with (S 99); apply final_x_last].
  intros j xc xl r Hin.
  destruct (test_operands n lm nlambda 0 st j xc xl r Hin) as (Hat & Hfirst & Hprev).
  destruct (tests_of_run n lm nlambda 0 st j xc xl r Hin) as (_ & Hr & _).
  split; [exact Hat|]. split; [exact Hr|]. split.
  - intros Hj. destruct (Hfirst Hj) as [Hxl Hlen].
    assert (Hn : length xc = n).
    { rewrite Hlen. unfold st, initial_for, initial. cbn. apply repeat_length. }
    split; [exact Hxl|]. intros Hsmall.
    rewrite Hr, Hxl. change (x_last st) with (repeat (numeric_limits_max T) n).
    rewrite <- Hn. apply sentinel_continue_for; [apply numeric_limits_max_pos|].
    rewrite Hn. exact Hsmall.
  - intros Hj. apply Hprev. lia.
Qed.

(** * Further properties of the reductions *)

Lemma maxl_ge (l : list R) (a : R) : In a l -> a <= fold_right Rmax 0 l.
Proof.
  induction l as [|c l IH]; intros Hin; [destruct Hin|].
  cbn [fold_right]. destruct Hin as [->|Hin]; [apply Rmax_l|].
  eapply Rle_trans; [apply IH; exact Hin | apply Rmax_r].
Qed.

Lemma maxl_le (l : list R) (B : R) :
  0 <= B -> (forall a, In a l -> a <= B) -> fold_right Rmax 0 l <= B.
Proof.
  intros HB. induction l as [|c l IH]; intros Hall; [exact HB|].
  cbn [fold_right]. apply Rmax_lub.
  - apply Hall. left. reflexivity.
  - apply IH. intros a Ha. apply Hall. right. exact Ha.
Qed.

Lemma maxl_attained (l : list R) :
  l <> [] -> (forall a, In a l -> 0 <= a) -> In (fold_right Rmax 0 l) l.
Proof.
  induction l as [|c l IH]; intros Hne Hpos; [contradiction|].
  cbn [fold_right]. destruct l as [|c' l].
  - left. cbn [fold_right]. symmetry. apply Rmax_left. apply Hpos. left. reflexivity.
  - assert (Hin : In (fold_right Rmax 0 (c' :: l)) (c' :: l)).
    { apply IH; [discriminate|]. intros a Ha. apply Hpos. right. exact Ha. }
    unfold Rmax at 1. destruct (Rle_dec c (fold_right Rmax 0 (c' :: l))).
    + right. exact Hin.
    + left. reflexivity.
Qed.


Lemma MaxDiff_maxl (v1 v2 : list R) :
  MaxDiff v1 v2
  = fold_right Rmax 0
      (map (fun i => Rabs (nth i v1 0 - nth i v2 0)) (seq 0 (length v1))).
Proof. rewrite MaxDiff_indices. apply fold_left_Rmax_0. Qed.

Lemma MaxDiff_nonneg (v1 v2 : list R) : 0 <= MaxDiff v1 v2.
Proof. rewrite MaxDiff_maxl. apply fold_right_Rmax_ge. Qed.

Lemma MaxDiff_ge (v1 v2 : list R) (j : nat) :
  (j < length v1)%nat -> Rabs (nth j v1 0 - nth j v2 0) <= MaxDiff v1 v2.
Proof.
  intros Hj. rewrite MaxDiff_maxl. apply maxl_ge.
  apply in_map_iff. exists j. split; [reflexivity|]. apply in_seq. lia.
Qed.


(** X1: on vectors of a common length, [MaxDiff] is nonnegative, bounds
    every [|v1[j] - v2[j]|] from above and, unless the vectors are empty (where
    it is 0), equals one of them. *)
Theorem X1_MaxDiff_is_maximum (v1 v2 : list R) :
  length v2 = length v1 ->
  0 <= MaxDiff v1 v2 /\
  (forall j, (j < length v1)%nat ->
     Rabs (nth j v1 0 - nth j v2 0) <= MaxDiff v1 v2) /\
  (v1 <> [] ->
   exists j, (j < length v1)%nat /\
             MaxDiff v1 v2 = Rabs (nth j v1 0 - nth j v2 0)) /\
  (v1 = [] -> MaxDiff v1 v2 = 0).
Proof.
  intros _. split; [apply MaxDiff_nonneg|]. split; [apply MaxDiff_ge|]. split.
  - intros Hne. rewrite MaxDiff_maxl.
    assert (Hin : In (fold_right Rmax 0
                        (map (fun i => Rabs (nth i v1 0 - nth i v2 0))
                             (seq 0 (length v1))))
                     (map (fun i => Rabs (nth i v1 0 - nth i v2 0))
                          (seq 0 (length v1)))).
    { apply maxl_attained.
      - destruct v1; [contradiction | discriminate].
      - intros a Ha. apply in_map_iff in Ha. destruct Ha as (j & <- & _).
        apply Rabs_pos. }
    apply in_map_iff in Hin. destruct Hin as (j & Hj & Hrange).
    apply in_seq in Hrange. exists j. split; [lia|]. symmetry. exact Hj.
  - intros ->. reflexivity.
Qed.

Lemma X1_witness :
  0 <= MaxDiff [1; 5] [2; 3] /\
  (forall j, (j < 2)%nat ->
     Rabs (nth j [1; 5] 0 - nth j [2; 3] 0) <= MaxDiff [1; 5] [2; 3]).
Proof.
  destruct (X1_MaxDiff_is_maximum [1; 5] [2; 3] eq_refl) as (H0 & Hub & _).
  split; [exact H0 | exact Hub].
Defined.



Lemma abs_sum_nonneg (v : list R) : 0 <= abs_sum v.
Proof.
  unfold abs_sum. induction v as [|a v IH]; cbn [map fold_right]; [lra|].
  pose proof (Rabs_pos a). lra.
Qed.

Lemma abs_sum_zero_iff (v : list R) :
  abs_sum v = 0 <-> Forall (fun a => a = 0) v.
Proof.
  unfold abs_sum. induction v as [|a v IH]; cbn [map fold_right].
  - split; [intros _; constructor | reflexivity].
  - pose proof (Rabs_pos a) as Ha. pose proof (abs_sum_nonneg v) as Hv.
    unfold abs_sum in Hv. split.
    + intros Hsum. constructor.
      * destruct (Req_dec a 0) as [Heq|Hne]; [exact Heq|].
        apply Rabs_pos_lt in Hne. lra.
      * apply IH. lra.
    + intros Hall. inversion Hall as [|? ? Ha0 Hrest]; subst.
      apply IH in Hrest. rewrite Hrest, Rabs_R0. lra.
Qed.

Lemma abs_sum_ge (v : list R) (a : R) : In a v -> Rabs a <= abs_sum v.
Proof.
  unfold abs_sum. induction v as [|c v IH]; intros Hin; [destruct Hin|].
  cbn [map fold_right]. pose proof (abs_sum_nonneg v) as Hv. unfold abs_sum in Hv.
  destruct Hin as [->|Hin]; [lra|]. specialize (IH Hin).
  pose proof (Rabs_pos c). lra.
Qed.

(** X3: [Asum] is nonnegative, bounds the magnitude of every entry, and
    vanishes exactly on the vectors whose entries are all zero. *)
Theorem X3_Asum_norm (v : list R) :
  0 <= Asum v /\
  (forall a, In a v -> Rabs a <= Asum v) /\
  (Asum v = 0 <-> Forall (fun a => a = 0) v).
Proof.
  rewrite Asum_spec. split; [apply abs_sum_nonneg|].
  split; [apply abs_sum_ge | apply abs_sum_zero_iff].
Qed.





Lemma converged_all_zero (x x_prev : list R) :
  Forall (fun a => a = 0) x -> converged x x_prev = false.
Proof.
  intros Hzero. apply converged_false_iff.
  apply abs_sum_zero_iff in Hzero. rewrite Asum_spec, Hzero.
  pose proof (MaxDiff_nonneg x x_prev). lra.
Qed.

(** X6: an iterate whose entries are all zero never passes the test,
    whatever the previous iterate is: the threshold [1e-3 * Asum] is then 0
    and [MaxDiff] is not negative. *)
Theorem X6_zero_iterate_never_stops (x x_prev : list R) :
  Forall (fun a => a = 0) x ->
  Asum x = 0 /\ 0 <= MaxDiff x x_prev /\ converged x x_prev = false.
Proof.
  intros Hzero. split; [|split].
  - rewrite Asum_spec. apply abs_sum_zero_iff. exact Hzero.
  - apply MaxDiff_nonneg.
  - apply converged_all_zero. exact Hzero.
Qed.

Lemma X6_witness : converged [0; 0] [3; 4] = false.
Proof.
  apply (X6_zero_iterate_never_stops [0; 0] [3; 4]).
  repeat constructor.
Defined.




(** * Further properties of the maximal penalty *)

Lemma lambda_max_maxl (m n : nat) (A : Sparse) (b : list R) :
  compute_lambda_max n (compute_u m n A b)
  = fold_right Rmax 0 (map Rabs (compute_u m n A b)).
Proof.
  rewrite <- (length_compute_u m n A b) at 1. apply compute_lambda_max_spec.
Qed.

Lemma maxl_abs_zero_iff (u : list R) :
  fold_right Rmax 0 (map Rabs u) = 0 <-> Forall (fun a => a = 0) u.
Proof.
  split.
  - intros Hzero. apply List.Forall_forall. intros a Ha.
    assert (Hle : Rabs a <= 0).
    { rewrite <- Hzero. apply maxl_ge. apply in_map. exact Ha. }
    destruct (Req_dec a 0) as [Heq|Hne]; [exact Heq|].
    apply Rabs_pos_lt in Hne. lra.
  - intros Hall. apply Rle_antisym; [|apply fold_right_Rmax_ge].
    apply maxl_le; [lra|]. intros c Hc. apply in_map_iff in Hc.
    destruct Hc as (a & <- & Ha). rewrite List.Forall_forall in Hall.
    rewrite (Hall a Ha), Rabs_R0. lra.
Qed.

(** X8: [lambda_max] is the largest magnitude among the [n] entries of
    [u]: it is nonnegative, bounds every [|u[j]|], is one of them when
    [n > 0], and is 0 exactly when [u] is the zero vector. *)
Theorem X8_lambda_max_is_maximum (m n : nat) (A : Sparse) (b : list R) :
  let u := compute_u m n A b in
  let lambda_max := compute_lambda_max n u in
  0 <= lambda_max /\
  (forall j, (j < n)%nat -> Rabs (nth j u 0) <= lambda_max) /\
  (n <> 0%nat -> exists j, (j < n)%nat /\ lambda_max = Rabs (nth j u 0)) /\
  (lambda_max = 0 <-> Forall (fun a => a = 0) u).
Proof.
  cbv zeta. rewrite lambda_max_maxl.
  pose proof (length_compute_u m n A b) as Hlen.
  set (u := compute_u m n A b) in *.
  split; [apply fold_right_Rmax_ge|]. split; [|split].
  - intros j Hj. apply maxl_ge. apply in_map. apply nth_In. lia.
  - intros Hn.
    assert (Hin : In (fold_right Rmax 0 (map Rabs u)) (map Rabs u)).
    { apply maxl_attained.
      - destruct u; [simpl in Hlen; lia | discriminate].
      - intros a Ha. apply in_map_iff in Ha. destruct Ha as (c & <- & _).
        apply Rabs_pos. }
    apply in_map_iff in Hin. destruct Hin as (a & Ha & Hin).
    destruct (In_nth u a 0 Hin) as (j & Hj & Hnth).
    exists j. split; [lia|]. rewrite Hnth. symmetry. exact Ha.
  - apply maxl_abs_zero_iff.
Qed.





Lemma nth_all_zero (b : list R) (i : nat) :
  Forall (fun a => a = 0) b -> nth i b 0 = 0.
Proof.
  intros Hall. destruct (Nat.lt_ge_cases i (length b)) as [Hlt|Hge].
  - rewrite List.Forall_forall in Hall. apply Hall. apply nth_In. exact Hlt.
  - apply nth_overflow. exact Hge.
Qed.

Lemma map_zero_repeat (n : nat) (h : nat -> R) (lo : nat) :
  (forall k, h k = 0) -> map h (seq lo n) = repeat 0 n.
Proof.
  intros Hh. revert lo. induction n as [|n IH]; intros lo; [reflexivity|].
  cbn [seq map repeat]. rewrite Hh, IH. reflexivity.
Qed.

(** X10: when the observations are identically zero, or the matrix has no
    nonzero in its [m] rows, [u] is the zero vector and [lambda_max = 0]. *)
Theorem X10_degenerate_lambda_max (m n : nat) (A : Sparse) (b : list R) :
  Forall (fun a => a = 0) b \/ nonzeros m A = [] ->
  compute_u m n A b = repeat 0 n /\
  compute_lambda_max n (compute_u m n A b) = 0.
Proof.
  intros Hdeg.
  assert (Hu : compute_u m n A b = repeat 0 n).
  { rewrite compute_u_spec. apply map_zero_repeat. intros k.
    unfold At_b_entry. destruct Hdeg as [Hb|HA].
    - generalize (nonzeros m A). intros l.
      induction l as [|[[i j] v] l IH]; cbn [map fold_right]; [reflexivity|].
      rewrite IH, (nth_all_zero b i Hb). destruct (Nat.eqb j k); lra.
    - rewrite HA. reflexivity. }
  split; [exact Hu|].
  rewrite lambda_max_maxl, Hu. apply maxl_abs_zero_iff.
  apply List.Forall_forall. intros a Ha. apply repeat_spec in Ha. exact Ha.
Qed.

Lemma X10_witness :
  compute_u 1 1 A_one [0] = repeat 0 1 /\
  compute_lambda_max 1 (compute_u 1 1 A_one [0]) = 0.
Proof.
  apply (X10_degenerate_lambda_max 1 1 A_one [0]).
  left. repeat constructor.
Defined.

(** * Further properties of the schedule *)









(** * Further properties of the path loop *)

Section Run.
Context {E : Pogs.Engine}.
Variables (n : nat) (lambda_max : R).

Lemma pairs_app (tr tr' : list event) : pairs (tr ++ tr') = pairs tr ++ pairs tr'.
Proof. unfold pairs. apply flat_map_app. Qed.

Lemma pairs_step_events (i : nat) (st : Driver E) :
  pairs (step_events n lambda_max i st)
  = [(lambda_at lambda_max i, Pogs.x (pogs_data (step_state n lambda_max i st)))].
Proof. reflexivity. Qed.

Lemma lambdas_of_run (todo i : nat) (st : Driver E) :
  map fst (pairs (snd (path_loop n lambda_max todo i st)))
  = map (lambda_at lambda_max)
        (seq i (steps (snd (path_loop n lambda_max todo i st)))).
Proof.
  revert i st. induction todo as [|todo IH]; intros i st; [reflexivity|].
  rewrite path_loop_S. destruct (step_stop n lambda_max i st); cbn [snd].
  - rewrite pairs_step_events, steps_step_events. reflexivity.
  - rewrite pairs_app, pairs_step_events, steps_app, steps_step_events.
    cbn [app map fst Nat.add seq]. f_equal. apply IH.
Qed.

Lemma solve_in_events (i : nat) (st : Driver E) (j : nat) (lambda : R)
  (pd : Pogs.PogsData) (xo : list R) :
  In (EvSolve j lambda pd xo) (step_events n lambda_max i st) ->
  j = i /\
  Pogs.x pd = Pogs.x (pogs_data st) /\ Pogs.y pd = Pogs.y (pogs_data st) /\
  xo = Pogs.x (pogs_data (step_state n lambda_max i st)).
Proof.
  unfold step_events. intros Hin.
  repeat (destruct Hin as [Hin|Hin]; try discriminate); [|contradiction].
  injection Hin as <- <- <- <-. split; [reflexivity|].
  split; [reflexivity|]. split; reflexivity.
Qed.

Lemma first_solve_in_run (todo i : nat) (st : Driver E) :
  exists pd,
    In (EvSolve i (lambda_at lambda_max i) pd
          (Pogs.x (pogs_data (step_state n lambda_max i st))))
       (snd (path_loop n lambda_max (S todo) i st)).
Proof.
  eexists. rewrite path_loop_S.
  destruct (step_stop n lambda_max i st); cbn [snd];
    [|apply in_or_app; left]; unfold step_events; do 4 right; left; reflexivity.
Qed.

(** What the solver is handed at each step: at the first step of the loop
    the buffers the loop was entered with, afterwards the iterate of the
    step before. *)
Lemma solve_operands (todo i : nat) (st : Driver E) (j : nat) (lambda : R)
  (pd : Pogs.PogsData) (xo : list R) :
  In (EvSolve j lambda pd xo) (snd (path_loop n lambda_max todo i st)) ->
  (i <= j)%nat /\
  x_at (snd (path_loop n lambda_max todo i st)) j = Some xo /\
  (j = i -> Pogs.x pd = Pogs.x (pogs_data st) /\
            Pogs.y pd = Pogs.y (pogs_data st)) /\
  ((i < j)%nat ->
   x_at (snd (path_loop n lambda_max todo i st)) (j - 1) = Some (Pogs.x pd)).
Proof.
  revert i st. induction todo as [|todo IH]; intros i st; [intros []|].
  rewrite path_loop_S.
  destruct (step_stop n lambda_max i st) eqn:Hstop; cbn [snd].
  - intros Hin. apply solve_in_events in Hin.
    destruct Hin as (-> & Hx & Hy & ->).
    rewrite <- (app_nil_r (step_events n lambda_max i st)).
    rewrite x_at_step_events_app, Nat.eqb_refl.
    split; [lia|]. split; [reflexivity|]. split; [|lia].
    intros _. split; assumption.
  - intros Hin. apply in_app_or in Hin. destruct Hin as [Hin|Hin].
    + apply solve_in_events in Hin. destruct Hin as (-> & Hx & Hy & ->).
      rewrite x_at_step_events_app, Nat.eqb_refl.
      split; [lia|]. split; [reflexivity|]. split; [|lia].
      intros _. split; assumption.
    + destruct (IH (S i) _ Hin) as (Hle & Hat & Hfirst & Hprev).
      rewrite !x_at_step_events_app.
      replace (Nat.eqb i j) with false by (symmetry; apply Nat.eqb_neq; lia).
      split; [lia|]. split; [exact Hat|]. split; [lia|]. intros _.
      destruct (Nat.eq_dec j (S i)) as [->|Hne].
      * replace (S i - 1)%nat with i by lia. rewrite Nat.eqb_refl.
        destruct (Hfirst eq_refl) as [-> _]. reflexivity.
      * replace (Nat.eqb i (j - 1)) with false
          by (symmetry; apply Nat.eqb_neq; lia).
        apply Hprev. lia.
Qed.

(** The sizes of the buffers do not change along a run. *)
Lemma sizes_of_run (todo i : nat) (st : Driver E) :
  length (x_last st) = length (Pogs.x (pogs_data st)) ->
  (forall j lambda pd xo,
     In (EvSolve j lambda pd xo) (snd (path_loop n lambda_max todo i st)) ->
     length (Pogs.x pd) = length (Pogs.x (pogs_data st)) /\
     length (Pogs.y pd) = length (Pogs.y (pogs_data st)) /\
     length xo = length (Pogs.x (pogs_data st))) /\
  (forall j xc xl r,
     In (EvTest j xc xl r) (snd (path_loop n lambda_max todo i st)) ->
     length xc = length (Pogs.x (pogs_data st)) /\
     length xl = length (Pogs.x (pogs_data st))) /\
  length (Pogs.x (pogs_data (fst (path_loop n lambda_max todo i st))))
  = length (Pogs.x (pogs_data st)) /\
  length (Pogs.y (pogs_data (fst (path_loop n lambda_max todo i st))))
  = length (Pogs.y (pogs_data st)) /\
  length (x_last (fst (path_loop n lambda_max todo i st)))
  = length (Pogs.x (pogs_data st)).
Proof.
  revert i st. induction todo as [|todo IH]; intros i st Hlast.
  - cbn [path_loop fst snd]. split; [intros j lambda pd xo []|].
    split; [intros j xc xl r []|]. split; [reflexivity|].
    split; [reflexivity | exact Hlast].
  - pose proof (length_step_x n lambda_max i st) as Hx.
    assert (Hy : length (Pogs.y (pogs_data (step_state n lambda_max i st)))
                 = length (Pogs.y (pogs_data st))).
    { unfold step_state, call_Solve, with_g. cbn.
      rewrite length_map. apply length_seq. }
    assert (Hsolve : forall j lambda pd xo,
               In (EvSolve j lambda pd xo) (step_events n lambda_max i st) ->
               length (Pogs.x pd) = length (Pogs.x (pogs_data st)) /\
               length (Pogs.y pd) = length (Pogs.y (pogs_data st)) /\
               length xo = length (Pogs.x (pogs_data st))).
    { intros j lambda pd xo Hin. apply solve_in_events in Hin.
      destruct Hin as (_ & -> & -> & ->).
      split; [reflexivity|]. split; [reflexivity | exact Hx]. }
    assert (Htest : forall j xc xl r,
               In (EvTest j xc xl r) (step_events n lambda_max i st) ->
               length xc = length (Pogs.x (pogs_data st)) /\
               length xl = length (Pogs.x (pogs_data st))).
    { intros j xc xl r Hin. apply test_in_step_events in Hin.
      destruct Hin as (_ & -> & -> & _). split; [exact Hx | exact Hlast]. }
    rewrite path_loop_S. destruct (step_stop n lambda_max i st); cbn [fst snd].
    + split; [exact Hsolve|]. split; [exact Htest|].
      split; [exact Hx|]. split; [exact Hy | exact Hlast].
    + destruct (IH (S i) (save_x (step_state n lambda_max i st)) eq_refl)
        as (Hs & Ht & Hfx & Hfy & Hfl).
      cbn [save_x pogs_data] in Hs, Ht, Hfx, Hfy, Hfl.
      rewrite Hx in Hs, Ht, Hfx, Hfl. rewrite Hy in Hs, Hfy.
      split; [|split; [|split; [exact Hfx|split; [exact Hfy | exact Hfl]]]].
      * intros j lambda pd xo Hin. apply in_app_or in Hin.
        destruct Hin as [Hin|Hin];
          [exact (Hsolve j lambda pd xo Hin) | exact (Hs j lambda pd xo Hin)].
      * intros j xc xl r Hin. apply in_app_or in Hin.
        destruct Hin as [Hin|Hin];
          [exact (Htest j xc xl r Hin) | exact (Ht j xc xl r Hin)].
Qed.

(** The contents of [x] when the loop is left are the last iterate. *)
Lemma final_x_of_run (todo i : nat) (st : Driver E) :
  x_at (snd (path_loop n lambda_max (S todo) i st))
       (i + steps (snd (path_loop n lambda_max (S todo) i st)) - 1)
  = Some (Pogs.x (pogs_data (fst (path_loop n lambda_max (S todo) i st)))).
Proof.
  revert i st. induction todo as [|todo IH]; intros i st.
  - rewrite path_loop_S.
    destruct (step_stop n lambda_max i st); cbn [fst snd path_loop];
      rewrite ?app_nil_r, steps_step_events;
      rewrite <- (app_nil_r (step_events n lambda_max i st));
      rewrite x_at_step_events_app;
      replace (i + 1 - 1)%nat with i by lia; rewrite Nat.eqb_refl; reflexivity.
  - rewrite path_loop_S.
    destruct (step_stop n lambda_max i st); cbn [fst snd].
    + rewrite steps_step_events.
      rewrite <- (app_nil_r (step_events n lambda_max i st)).
      rewrite x_at_step_events_app.
      replace (i + 1 - 1)%nat with i by lia. rewrite Nat.eqb_refl. reflexivity.
    + pose proof (run_solves_once n lambda_max todo (S i)
                    (save_x (step_state n lambda_max i st))) as H1.
      rewrite x_at_step_events_app, steps_app, steps_step_events.
      replace (Nat.eqb i _) with false by (symmetry; apply Nat.eqb_neq; lia).
      rewrite <- IH. f_equal. lia.
Qed.
End Run.

(** X14: every run makes at least one path step, and the penalties of the
    (lambda, x) pairs it produces are, in order, the first values of the
    schedule: the k-th pair carries [lambda_k]. *)
Theorem X14_pairs_follow_schedule (E : Pogs.Engine) (m n : nat) (A : Sparse)
  (b : list R) :
  let lambda_max := compute_lambda_max n (compute_u m n A b) in
  let tr := snd (LassoPath E m n A b) in
  (1 <= steps tr)%nat /\
  map fst (pairs tr) = map (lambda_at lambda_max) (seq 0 (steps tr)).
Proof.
  cbv zeta. unfold LassoPath. change nlambda with (S 99).
  split; [apply run_solves_once | apply lambdas_of_run].
Qed.

(** X15: warm start.  The solver is handed, in [x], the zero vector at step
    0 (with [y] zero as well) and at every later step the iterate it produced
    at the step before; what it leaves in [x] is the iterate of the step. *)
Theorem X15_warm_start (E : Pogs.Engine) (m n : nat) (A : Sparse) (b : list R)
  (j : nat) (lambda : R) (pd : Pogs.PogsData) (xo : list R) :
  In (EvSolve j lambda pd xo) (snd (LassoPath E m n A b)) ->
  (j = 0%nat -> Pogs.x pd = repeat 0 n /\ Pogs.y pd = repeat 0 m) /\
  ((1 <= j)%nat ->
   x_at (snd (LassoPath E m n A b)) (j - 1) = Some (Pogs.x pd)) /\
  x_at (snd (LassoPath E m n A b)) j = Some xo.
Proof.
  unfold LassoPath. intros Hin.
  destruct (solve_operands _ _ _ _ _ _ _ _ _ Hin) as (_ & Hat & Hfirst & Hprev).
  split; [|split; [|exact Hat]].
  - intros Hj. exact (Hfirst Hj).
  - intros Hj. apply Hprev. lia.
Qed.

Lemma X15_witness :
  exists pd xo,
    Pogs.x pd = repeat 0 1 /\
    x_at (snd (LassoPath idle_engine 1 1 A_one [2])) 0 = Some xo.
Proof.
  destruct (first_solve_in_run (E := idle_engine) 1
              (compute_lambda_max 1 (compute_u 1 1 A_one [2])) 99 0
              (initial 1 1 A_one [2])) as [pd Hin].
  exists pd. eexists.
  destruct (X15_warm_start idle_engine 1 1 A_one [2] _ _ _ _ Hin)
    as (Hfirst & _ & Hat).
  split; [exact (proj1 (Hfirst eq_refl)) | exact Hat].
Defined.

(** X16: the buffers keep their sizes along the whole path: at every solver
    invocation [x] has [n] entries and [y] has [m], every iterate has [n]
    entries, both operands of every test have [n] entries (so [MaxDiff]
    never reads past the end of [x_last]), and on return [x], [x_last] and
    [y] still have their sizes. *)
Theorem X16_buffer_sizes (E : Pogs.Engine) (m n : nat) (A : Sparse) (b : list R) :
  let run := LassoPath E m n A b in
  (forall j lambda pd xo,
     In (EvSolve j lambda pd xo) (snd run) ->
     length (Pogs.x pd) = n /\ length (Pogs.y pd) = m /\ length xo = n) /\
  (forall j xc xl r,
     In (EvTest j xc xl r) (snd run) -> length xc = n /\ length xl = n) /\
  length (Pogs.x (pogs_data (fst run))) = n /\
  length (Pogs.y (pogs_data (fst run))) = m /\
  length (x_last (fst run)) = n.
Proof.
  cbv zeta. unfold LassoPath.
  set (lm := compute_lambda_max n (compute_u m n A b)).
  assert (Hx : length (Pogs.x (pogs_data (initial (E := E) m n A b))) = n)
    by apply repeat_length.
  assert (Hy : length (Pogs.y (pogs_data (initial (E := E) m n A b))) = m)
    by apply repeat_length.
  assert (Hl : length (x_last (initial (E := E) m n A b))
               = length (Pogs.x (pogs_data (initial (E := E) m n A b)))).
  { rewrite Hx. apply repeat_length. }
  pose proof (sizes_of_run n lm nlambda 0 (initial m n A b) Hl) as Hsizes.
  rewrite Hx, Hy in Hsizes. exact Hsizes.
Qed.

(** X17: on return the buffer [x] holds the iterate of the last step that
    was taken. *)
Theorem X17_final_x_is_last_iterate (E : Pogs.Engine) (m n : nat) (A : Sparse)
  (b : list R) :
  let run := LassoPath E m n A b in
  x_at (snd run) (steps (snd run) - 1) = Some (Pogs.x (pogs_data (fst run))).
Proof.
  cbv zeta. unfold LassoPath. change nlambda with (S 99).
  apply (final_x_of_run n _ 99 0).
Qed.

Lemma zero_engine_step {E : Pogs.Engine} (n : nat) (lm : R) (i : nat)
  (st : Driver E) :
  (forall pd fa k, Pogs.out_x (Pogs.Solve E pd fa) k = 0) ->
  Forall (fun a => a = 0) (Pogs.x (pogs_data (step_state n lm i st))).
Proof.
  intros Hzero. unfold step_state, call_Solve, with_g. cbn.
  apply List.Forall_forall. intros a Ha. apply in_map_iff in Ha.
  destruct Ha as (k & <- & _). apply Hzero.
Qed.

(** X18: with an engine that always leaves the zero vector in [x], the
    early stop never happens: the test fires at no step, all [nlambda] steps
    are taken, and [x] is zero on return. *)
Theorem X18_zero_solution_runs_whole_path (E : Pogs.Engine) (m n : nat)
  (A : Sparse) (b : list R) :
  (forall pd fa k, Pogs.out_x (Pogs.Solve E pd fa) k = 0) ->
  steps (snd (LassoPath E m n A b)) = nlambda /\
  (forall j, ~ fires (snd (LassoPath E m n A b)) j) /\
  Forall (fun a => a = 0) (Pogs.x (pogs_data (fst (LassoPath E m n A b)))).
Proof.
  intros Hzero. unfold LassoPath.
  set (lm := compute_lambda_max n (compute_u m n A b)).
  destruct (path_loop_continue (E := E) n lm
              (fun _ st => Forall (fun a => a = 0) (Pogs.x (pogs_data st)))
              nlambda) with (k := nlambda) (todo := 0%nat) (i := 0%nat)
              (st := initial (E := E) m n A b)
    as (st' & tr & Hinv & Hsteps & Hnever & Heq).
  - intros i st _ _. split.
    + rewrite step_stop_converged. apply converged_all_zero.
      apply zero_engine_step. exact Hzero.
    + apply (zero_engine_step n lm i st Hzero).
  - apply List.Forall_forall. intros a Ha. apply repeat_spec in Ha. exact Ha.
  - lia.
  - rewrite Nat.add_0_r in Heq. rewrite Heq. cbn [fst snd path_loop].
    rewrite app_nil_r. split; [exact Hsteps|]. split; [exact Hnever | exact Hinv].
Qed.

Lemma X18_witness :
  steps (snd (LassoPath (const_engine 0) 1 1 A_one [2])) = nlambda.
Proof.
  apply (X18_zero_solution_runs_whole_path (const_engine 0) 1 1 A_one [2]).
  intros pd fa k. reflexivity.
Defined.


